(** * generate_mapping.py: the EPANET-GoldSim bridge mapping generator

    A shallow embedding of [scripts/generate_mapping.py] (classes
    [EpanetInpParser] and [MappingGenerator], and [main]) together with the
    properties of its specification.

    Conventions of the embedding.
    - A Python [str] is a list of characters; a character is one of the code
      points U+0000..U+00FF, carried by the 8-bit type [ascii].  The library
      predicates the script relies on ([str.isspace], regular-expression
      case folding, [str.upper], [int]) are given for that range.
    - Python integers are unbounded: [Z].
    - An exception that the script does not catch is a value [inl e] of the
      result type; a caught exception is the branch the handler takes.
    - Mutation of [self] is explicit state passing: a method takes the object
      and returns the updated object.
    - Console output to stdout is not part of the model, and printing is
      taken to succeed once the text to print has been formatted; formatting
      an integer can raise, and is part of the model.  The error messages
      written to stderr by [add_input] and [add_output] are returned as
      values of type [spec_error].
    - The script is taken to run on a POSIX system: [os.path] is
      [posixpath]. *)

From Stdlib Require Import ZArith NArith List Ascii String Bool Lia.
From Stdlib Require Strings.Byte DecimalString.
Import ListNotations.

Local Open Scope Z_scope.

(** ** Python strings *)

Definition str : Type := list ascii.

Definition lit (s : string) : str := list_ascii_of_string s.

Definition chr_nl : ascii := "010"%char.

Definition str_eqb (a b : str) : bool :=
  if list_eq_dec ascii_dec a b then true else false.

(** [x in l] for a list of strings. *)
Definition str_in (x : str) (l : list str) : bool := existsb (str_eqb x) l.

Definition code (c : ascii) : N := N_of_ascii c.

(** [str.isspace] on one character, which is also the class [\s] of a
    regular expression over [str]: U+0009..U+000D, U+001C..U+0020, U+0085 and
    U+00A0. *)
Definition isspace (c : ascii) : bool :=
  let n := code c in
  ((9 <=? n) && (n <=? 13) || (28 <=? n) && (n <=? 32)
   || (n =? 133) || (n =? 160))%N.

(** The lower-case mapping that [re.IGNORECASE] applies to a character of the
    text before it is compared with a literal of the pattern. *)
Definition tolower (c : ascii) : ascii :=
  let n := code c in
  if ((65 <=? n) && (n <=? 90)
      || (192 <=? n) && (n <=? 222) && negb (n =? 215))%N
  then ascii_of_N (n + 32) else c.

(** Comparison of a text character with a pattern literal. *)
Definition chr_match (ignorecase : bool) (p c : ascii) : bool :=
  if ignorecase then Ascii.eqb (tolower c) (tolower p) else Ascii.eqb c p.

(** [s.split(sep)] for a one-character separator: the pieces between the
    separators, empty pieces included; always at least one piece. *)
Fixpoint split (sep : ascii) (s : str) : list str :=
  match s with
  | [] => [[]]
  | c :: r =>
      if Ascii.eqb c sep then [] :: split sep r
      else match split sep r with
           | p :: ps => (c :: p) :: ps
           | [] => [[c]]
           end
  end.

Fixpoint lstrip (s : str) : str :=
  match s with
  | c :: r => if isspace c then lstrip r else s
  | [] => []
  end.

Definition rstrip (s : str) : str := rev (lstrip (rev s)).

(** [s.strip()] *)
Definition strip (s : str) : str := rstrip (lstrip s).

(** [s.split()]: the maximal runs of non-whitespace characters.  [cur] is the
    run being read, [None] between runs. *)
Fixpoint split_ws_aux (cur : option str) (s : str) : list str :=
  match s with
  | [] => match cur with Some w => [w] | None => [] end
  | c :: r =>
      if isspace c
      then match cur with
           | Some w => w :: split_ws_aux None r
           | None => split_ws_aux None r
           end
      else split_ws_aux (Some (match cur with Some w => w ++ [c] | None => [c] end)) r
  end.

Definition split_ws (s : str) : list str := split_ws_aux None s.

(** [s[a:b]] for [0 <= a], [0 <= b]. *)
Definition slice (s : str) (a b : nat) : str := firstn (b - a) (skipn a s).

(** ** Regular expressions used by the script

    All patterns of the script are literals, except [Hydraulic\s+Timestep]. *)

(** Matching a literal at the start of the text: the rest of the text after
    the match. *)
Fixpoint match_literal (ignorecase : bool) (pat s : str) : option str :=
  match pat with
  | [] => Some s
  | p :: pat' =>
      match s with
      | c :: s' => if chr_match ignorecase p c then match_literal ignorecase pat' s' else None
      | [] => None
      end
  end.

(** [re.search(literal, s)]: the leftmost match, as [(m.start(), m.end())]. *)
Fixpoint re_search (ignorecase : bool) (pat s : str) : option (nat * nat) :=
  match match_literal ignorecase pat s with
  | Some _ => Some (0%nat, List.length pat)
  | None =>
      match s with
      | [] => None
      | _ :: r =>
          match re_search ignorecase pat r with
          | Some (a, b) => Some (S a, S b)
          | None => None
          end
      end
  end.

(** [re.match(literal, s, re.IGNORECASE)] as a truth value. *)
Definition re_match_literal (pat s : str) : bool :=
  match match_literal true pat s with Some _ => true | None => false end.

(** [re.match(r'Hydraulic\s+Timestep', s, re.IGNORECASE)] as a truth value.
    [\s+] is greedy; the literal that follows starts with a letter, so the
    only split that can succeed is the one where [\s+] takes the whole run of
    whitespace. *)
Definition re_match_hydraulic_timestep (s : str) : bool :=
  match match_literal true (lit "Hydraulic") s with
  | Some (c :: r) =>
      isspace c && re_match_literal (lit "Timestep") (lstrip r)
  | _ => false
  end.

(** ** Exceptions and the error monad *)

Inductive exception : Type :=
| ValueError.

Definition result (A : Type) : Type := (exception + A)%type.

Definition ret {A} (a : A) : result A := inr a.
Definition raise {A} (e : exception) : result A := inl e.
Definition bind {A B} (m : result A) (k : A -> result B) : result B :=
  match m with
  | inl e => inl e
  | inr a => k a
  end.

Notation "x <- m ;; k" := (bind m (fun x => k))
  (at level 61, m at next level, right associativity).

(** ** [int(s)] *)

(** Characters that [int] skips around the literal. *)
Definition int_isspace (c : ascii) : bool :=
  let n := code c in
  ((9 <=? n) && (n <=? 13) || (n =? 32) || (n =? 133) || (n =? 160))%N.

Definition isdigit (c : ascii) : bool :=
  let n := code c in ((48 <=? n) && (n <=? 57))%N.

Definition digit_value (c : ascii) : Z := Z.of_N (code c) - 48.

Definition chr_underscore : ascii := "_"%char.

(** Digits with single underscores between them, most significant first.
    [prev_us] records that the previous character was an underscore. *)
Fixpoint scan_digits (s : str) (prev_us : bool) (acc : Z) : option Z :=
  match s with
  | [] => if prev_us then None else Some acc
  | c :: r =>
      if isdigit c then scan_digits r false (acc * 10 + digit_value c)
      else if Ascii.eqb c chr_underscore
           then if prev_us then None else scan_digits r true acc
           else None
  end.

Definition int_max_str_digits : nat := 4300.

Definition count_digits (s : str) : nat := List.length (filter isdigit s).

Definition int_unsigned (s : str) : option Z :=
  match s with
  | [] => None
  | c :: _ =>
      if Ascii.eqb c chr_underscore then None
      else if (int_max_str_digits <? count_digits s)%nat then None
      else scan_digits s false 0
  end.

Fixpoint int_lstrip (s : str) : str :=
  match s with
  | c :: r => if int_isspace c then int_lstrip r else s
  | [] => []
  end.

(** [int(s)]: optional surrounding whitespace, an optional sign, decimal
    digits; [ValueError] otherwise (and, as CPython does since 3.11, for a
    literal of more than 4300 digits). *)
Definition int (s : str) : result Z :=
  let s := rev (int_lstrip (rev (int_lstrip s))) in
  let signed :=
    match s with
    | c :: r =>
        if Ascii.eqb c "-"%char then option_map Z.opp (int_unsigned r)
        else if Ascii.eqb c "+"%char then int_unsigned r
        else int_unsigned s
    | [] => None
    end in
  match signed with
  | Some z => ret z
  | None => raise ValueError
  end.

(** ** class EpanetInpParser *)

Record EpanetInpParser : Type := mkParser {
  junctions : list str;
  reservoirs : list str;
  tanks : list str;
  pipes : list str;
  pumps : list str;
  valves : list str;
  patterns : list str;
  hydraulic_timestep : Z;
  quality_enabled : bool
}.

(** [EpanetInpParser.__init__] *)
Definition EpanetInpParser_init : EpanetInpParser :=
  mkParser [] [] [] [] [] [] [] 3600 false.

(** The text between the end of the header match and the next ["\n["], or the
    end of the text: the common prologue of the three section parsers.
    [None] when the header does not occur. *)
Definition section_content (ignorecase_header : str) (content : str) : option str :=
  match re_search true ignorecase_header content with
  | None => None
  | Some (_, section_start) =>
      let section_end :=
        match re_search false [chr_nl; "["%char] (skipn section_start content) with
        | Some (next_start, _) => (section_start + next_start)%nat
        | None => List.length content
        end in
      Some (slice content section_start section_end)
  end.

(** [line.split(';')[0].strip()] *)
Definition clean_line (line : str) : str :=
  strip (nth 0 (split ";"%char line) []).

Definition is_empty (s : str) : bool :=
  match s with [] => true | _ => false end.

(** [_parse_section]: [output_list] is the list the method appends to. *)
Definition _parse_section (content section_name : str) (output_list : list str)
  : list str :=
  match section_content section_name content with
  | None => output_list
  | Some body =>
      fold_left
        (fun out line =>
           let line := clean_line line in
           if is_empty line then out
           else match split_ws line with
                | element_id :: _ => out ++ [element_id]
                | [] => out
                end)
        (split chr_nl body) output_list
  end.

(** [_parse_time_string] *)
Definition _parse_time_string (time_str : str) : result Z :=
  let parts := split ":"%char time_str in
  if (List.length parts =? 2)%nat then
    hours <- int (nth 0 parts []) ;;
    minutes <- int (nth 1 parts []) ;;
    ret (hours * 3600 + minutes * 60)
  else if (List.length parts =? 3)%nat then
    hours <- int (nth 0 parts []) ;;
    minutes <- int (nth 1 parts []) ;;
    seconds <- int (nth 2 parts []) ;;
    ret (hours * 3600 + minutes * 60 + seconds)
  else ret 3600.

Definition set_hydraulic_timestep (self : EpanetInpParser) (v : Z) : EpanetInpParser :=
  mkParser (junctions self) (reservoirs self) (tanks self) (pipes self)
           (pumps self) (valves self) (patterns self) v (quality_enabled self).

Definition set_quality_enabled (self : EpanetInpParser) (v : bool) : EpanetInpParser :=
  mkParser (junctions self) (reservoirs self) (tanks self) (pipes self)
           (pumps self) (valves self) (patterns self) (hydraulic_timestep self) v.

(** The loop of [_parse_times_section] over the lines of the section; it
    ends at the first matching line that has three tokens ([break]). *)
Fixpoint times_loop (lines : list str) (self : EpanetInpParser)
  : result EpanetInpParser :=
  match lines with
  | [] => ret self
  | line :: rest =>
      let line := clean_line line in
      if is_empty line then times_loop rest self
      else if re_match_hydraulic_timestep line then
        let parts := split_ws line in
        if (3 <=? List.length parts)%nat then
          v <- _parse_time_string (nth 2 parts []) ;;
          ret (set_hydraulic_timestep self v)
        else times_loop rest self
      else times_loop rest self
  end.

Definition _parse_times_section (self : EpanetInpParser) (content : str)
  : result EpanetInpParser :=
  match section_content (lit "[TIMES]") content with
  | None => ret self
  | Some body => times_loop (split chr_nl body) self
  end.

(** ** [str.upper]

    The result may leave the range U+0000..U+00FF (U+00B5 and U+00FF) or be
    longer than the argument (U+00DF), so it is a list of code points. *)
Definition upper_chr (c : ascii) : list N :=
  let n := code c in
  if ((97 <=? n) && (n <=? 122))%N then [n - 32]%N
  else if ((224 <=? n) && (n <=? 254) && negb (n =? 247))%N then [n - 32]%N
  else if (n =? 223)%N then [83; 83]%N
  else if (n =? 181)%N then [924]%N
  else if (n =? 255)%N then [376]%N
  else [n].

Definition upper (s : str) : list N := flat_map upper_chr s.

Definition codes (s : str) : list N := map code s.

Definition codes_eqb (a b : list N) : bool :=
  if list_eq_dec N.eq_dec a b then true else false.

(** The loop of [_parse_quality_section]; it ends at the first matching line
    that has two tokens ([break]). *)
Fixpoint quality_loop (lines : list str) (self : EpanetInpParser)
  : EpanetInpParser :=
  match lines with
  | [] => self
  | line :: rest =>
      let line := clean_line line in
      if is_empty line then quality_loop rest self
      else if re_match_literal (lit "Quality") line then
        let parts := split_ws line in
        if (2 <=? List.length parts)%nat then
          let quality_type := upper (nth 1 parts []) in
          set_quality_enabled self (negb (codes_eqb quality_type (codes (lit "NONE"))))
        else quality_loop rest self
      else quality_loop rest self
  end.

Definition _parse_quality_section (self : EpanetInpParser) (content : str)
  : EpanetInpParser :=
  match section_content (lit "[OPTIONS]") content with
  | None => self
  | Some body => quality_loop (split chr_nl body) self
  end.

(** [parse]: [file] is what opening and reading [self.inp_file] in text mode
    gives, [None] when that raises.  The method returns its truth value and
    the updated parser. *)
Definition parse (self : EpanetInpParser) (file : option str)
  : result (bool * EpanetInpParser) :=
  match file with
  | None => ret (false, self)
  | Some content =>
      let self :=
        mkParser
          (_parse_section content (lit "[JUNCTIONS]") (junctions self))
          (_parse_section content (lit "[RESERVOIRS]") (reservoirs self))
          (_parse_section content (lit "[TANKS]") (tanks self))
          (_parse_section content (lit "[PIPES]") (pipes self))
          (_parse_section content (lit "[PUMPS]") (pumps self))
          (_parse_section content (lit "[VALVES]") (valves self))
          (_parse_section content (lit "[PATTERNS]") (patterns self))
          (hydraulic_timestep self) (quality_enabled self) in
      self <- _parse_times_section self content ;;
      let self := _parse_quality_section self content in
      ret (true, self)
  end.

Definition get_all_nodes (self : EpanetInpParser) : list str :=
  junctions self ++ reservoirs self ++ tanks self.

Definition get_all_links (self : EpanetInpParser) : list str :=
  pipes self ++ pumps self ++ valves self.

(** ** class MappingGenerator *)

Inductive object_type_t : Type := NODE | LINK | PATTERN | SYSTEM.

(** The string an object type is written as. *)
Definition object_type_name (t : object_type_t) : str :=
  match t with
  | NODE => lit "NODE"
  | LINK => lit "LINK"
  | PATTERN => lit "PATTERN"
  | SYSTEM => lit "SYSTEM"
  end.

(** One mapping entry: the dictionary with the keys [index], [name],
    [object_type] and [property]. *)
Record entry : Type := mkEntry {
  index : nat;
  name : str;
  object_type : object_type_t;
  property : str
}.

Record MappingGenerator : Type := mkGenerator {
  parser : EpanetInpParser;
  inp_file : str;
  inputs : list entry;
  outputs : list entry
}.

(** [MappingGenerator.__init__] *)
Definition MappingGenerator_init (parser : EpanetInpParser) (inp_file : str)
  : MappingGenerator :=
  mkGenerator parser inp_file [] [].

(** [_get_object_type]; [None] is Python's [None]. *)
Definition _get_object_type (self : MappingGenerator) (element_id : str)
  : option object_type_t :=
  let p := parser self in
  if str_in element_id (junctions p) || str_in element_id (reservoirs p)
     || str_in element_id (tanks p)
  then Some NODE
  else if str_in element_id (pipes p) || str_in element_id (pumps p)
          || str_in element_id (valves p)
  then Some LINK
  else if str_in element_id (patterns p) then Some PATTERN
  else None.

(** The dictionary of [_is_valid_input_property], with [.get(_, [])]. *)
Definition valid_input_properties (t : object_type_t) : list str :=
  match t with
  | NODE => [lit "DEMAND"]
  | LINK => [lit "STATUS"; lit "SETTING"]
  | PATTERN => [lit "MULTIPLIER"]
  | SYSTEM => []
  end.

Definition _is_valid_input_property (t : object_type_t) (property_name : str) : bool :=
  str_in property_name (valid_input_properties t).

(** The dictionary of [_is_valid_output_property], with [.get(_, [])]. *)
Definition valid_output_properties (t : object_type_t) : list str :=
  match t with
  | NODE => [lit "PRESSURE"; lit "HEAD"; lit "DEMAND"; lit "TANKLEVEL"; lit "QUALITY"]
  | LINK => [lit "FLOW"; lit "VELOCITY"; lit "HEADLOSS"; lit "STATUS";
             lit "SETTING"; lit "QUALITY"]
  | PATTERN => []
  | SYSTEM => []
  end.

Definition _is_valid_output_property (t : object_type_t) (property_name : str) : bool :=
  str_in property_name (valid_output_properties t).

(** The three error messages of [add_input] and [add_output], with the values
    they are formatted with. *)
Inductive spec_error : Type :=
| InvalidSpecFormat (element_spec : str)
| UnknownElement (element_id : str)
| InvalidProperty (property_name : str) (t : object_type_t).

(** What a call of [add_input] or [add_output] does besides updating [self]:
    [Added] is the return value [True]; [Rejected e] is the message [e] on
    stderr and the return value [False]. *)
Inductive add_result : Type :=
| Added
| Rejected (e : spec_error).

Definition returns_true (r : add_result) : bool :=
  match r with Added => true | Rejected _ => false end.

Definition append_input (self : MappingGenerator) (e : entry) : MappingGenerator :=
  mkGenerator (parser self) (inp_file self) (inputs self ++ [e]) (outputs self).

Definition append_output (self : MappingGenerator) (e : entry) : MappingGenerator :=
  mkGenerator (parser self) (inp_file self) (inputs self) (outputs self ++ [e]).

(** [add_input] *)
Definition add_input (self : MappingGenerator) (element_spec : str)
  : MappingGenerator * add_result :=
  let parts := split ":"%char element_spec in
  if negb (List.length parts =? 2)%nat then (self, Rejected (InvalidSpecFormat element_spec))
  else
    let element_id := nth 0 parts [] in
    let property_name := nth 1 parts [] in
    match _get_object_type self element_id with
    | None => (self, Rejected (UnknownElement element_id))
    | Some t =>
        if negb (_is_valid_input_property t property_name)
        then (self, Rejected (InvalidProperty property_name t))
        else
          (append_input self
             (mkEntry (List.length (inputs self) + 1) element_id t property_name),
           Added)
    end.

(** [add_output] *)
Definition add_output (self : MappingGenerator) (element_spec : str)
  : MappingGenerator * add_result :=
  let parts := split ":"%char element_spec in
  if negb (List.length parts =? 2)%nat then (self, Rejected (InvalidSpecFormat element_spec))
  else
    let element_id := nth 0 parts [] in
    let property_name := nth 1 parts [] in
    match _get_object_type self element_id with
    | None => (self, Rejected (UnknownElement element_id))
    | Some t =>
        if negb (_is_valid_output_property t property_name)
        then (self, Rejected (InvalidProperty property_name t))
        else
          (append_output self
             (mkEntry (List.length (outputs self)) element_id t property_name),
           Added)
    end.

(** One loop of [generate_default_outputs]: for each identifier, append an
    entry whose index is the length of [self.outputs] at that moment. *)
Definition append_each (ids : list str) (t : object_type_t) (prop : str)
  (self : MappingGenerator) : MappingGenerator :=
  fold_left
    (fun self id => append_output self (mkEntry (List.length (outputs self)) id t prop))
    ids self.

(** [generate_default_outputs] *)
Definition generate_default_outputs (self : MappingGenerator) (include_quality : bool)
  : MappingGenerator :=
  let self := append_each (tanks (parser self)) NODE (lit "TANKLEVEL") self in
  let self := append_each (junctions (parser self)) NODE (lit "PRESSURE") self in
  let self := append_each (get_all_links (parser self)) LINK (lit "FLOW") self in
  if include_quality then
    let self := append_each (get_all_nodes (parser self)) NODE (lit "QUALITY") self in
    append_each (get_all_links (parser self)) LINK (lit "QUALITY") self
  else self.

(** ** [hashlib.md5]

    The MD5 message digest (RFC 1321) on 32-bit words carried by [Z]. *)
Module MD5.

Definition byte : Type := Byte.byte.

Definition byte_val (b : byte) : Z := Z.of_N (Strings.Byte.to_N b).

Definition mask32 (x : Z) : Z := Z.land x 0xffffffff.

Definition add32 (x y : Z) : Z := mask32 (x + y).

Definition not32 (x : Z) : Z := Z.lxor x 0xffffffff.

Definition rotl32 (x c : Z) : Z :=
  mask32 (Z.lor (Z.shiftl x c) (Z.shiftr x (32 - c))).

(** Per-round shift amounts. *)
Definition s_table : list Z :=
  [7; 12; 17; 22; 7; 12; 17; 22; 7; 12; 17; 22; 7; 12; 17; 22;
   5; 9; 14; 20; 5; 9; 14; 20; 5; 9; 14; 20; 5; 9; 14; 20;
   4; 11; 16; 23; 4; 11; 16; 23; 4; 11; 16; 23; 4; 11; 16; 23;
   6; 10; 15; 21; 6; 10; 15; 21; 6; 10; 15; 21; 6; 10; 15; 21].

(** [floor(2^32 * abs(sin(i + 1)))] *)
Definition K_table : list Z :=
  [0xd76aa478; 0xe8c7b756; 0x242070db; 0xc1bdceee;
   0xf57c0faf; 0x4787c62a; 0xa8304613; 0xfd469501;
   0x698098d8; 0x8b44f7af; 0xffff5bb1; 0x895cd7be;
   0x6b901122; 0xfd987193; 0xa679438e; 0x49b40821;
   0xf61e2562; 0xc040b340; 0x265e5a51; 0xe9b6c7aa;
   0xd62f105d; 0x02441453; 0xd8a1e681; 0xe7d3fbc8;
   0x21e1cde6; 0xc33707d6; 0xf4d50d87; 0x455a14ed;
   0xa9e3e905; 0xfcefa3f8; 0x676f02d9; 0x8d2a4c8a;
   0xfffa3942; 0x8771f681; 0x6d9d6122; 0xfde5380c;
   0xa4beea44; 0x4bdecfa9; 0xf6bb4b60; 0xbebfbc70;
   0x289b7ec6; 0xeaa127fa; 0xd4ef3085; 0x04881d05;
   0xd9d4d039; 0xe6db99e5; 0x1fa27cf8; 0xc4ac5665;
   0xf4292244; 0x432aff97; 0xab9423a7; 0xfc93a039;
   0x655b59c3; 0x8f0ccc92; 0xffeff47d; 0x85845dd1;
   0x6fa87e4f; 0xfe2ce6e0; 0xa3014314; 0x4e0811a1;
   0xf7537e82; 0xbd3af235; 0x2ad7d2bb; 0xeb86d391].

Definition state : Type := (Z * Z * Z * Z)%type.

Definition initial_state : state :=
  (0x67452301, 0xefcdab89, 0x98badcfe, 0x10325476).

(** One of the 64 operations on the words [M] of a block. *)
Definition round (M : list Z) (st : state) (i : nat) : state :=
  let '(A, B, C, D) := st in
  let '(F, g) :=
    if (i <? 16)%nat then
      (Z.lor (Z.land B C) (Z.land (not32 B) D), i)
    else if (i <? 32)%nat then
      (Z.lor (Z.land D B) (Z.land (not32 D) C), ((5 * i + 1) mod 16)%nat)
    else if (i <? 48)%nat then
      (Z.lxor B (Z.lxor C D), ((3 * i + 5) mod 16)%nat)
    else
      (Z.lxor C (Z.lor B (not32 D)), ((7 * i) mod 16)%nat) in
  let F := add32 (add32 (add32 F A) (nth i K_table 0)) (nth g M 0) in
  (D, add32 B (rotl32 F (nth i s_table 0)), B, C).

(** Little-endian words of a list of bytes, four bytes a word. *)
Fixpoint words (n : nat) (l : list Z) : list Z :=
  match n with
  | O => []
  | S n' =>
      match l with
      | b0 :: b1 :: b2 :: b3 :: r =>
          (b0 + Z.shiftl b1 8 + Z.shiftl b2 16 + Z.shiftl b3 24) :: words n' r
      | _ => []
      end
  end.

Definition process_block (st : state) (block : list Z) : state :=
  let M := words 16 block in
  let '(A, B, C, D) := st in
  let '(A', B', C', D') := fold_left (round M) (seq 0 64) st in
  (add32 A A', add32 B B', add32 C C', add32 D D').

(** The [n] first 64-byte blocks of [l]. *)
Fixpoint blocks (n : nat) (l : list Z) : list (list Z) :=
  match n with
  | O => []
  | S n' => firstn 64 l :: blocks n' (skipn 64 l)
  end.

Definition le_bytes (n : nat) (x : Z) : list Z :=
  map (fun i => Z.land (Z.shiftr x (8 * Z.of_nat i)) 0xff) (seq 0 n).

(** The message followed by the bit 1, zeros up to 56 modulo 64 bytes, and
    the bit length of the message on 64 bits. *)
Definition pad (msg : list Z) : list Z :=
  let len := List.length msg in
  let zeros := ((119 - len mod 64) mod 64)%nat in
  msg ++ [0x80] ++ repeat 0 zeros
      ++ le_bytes 8 (Z.land (8 * Z.of_nat len) 0xffffffffffffffff).

Definition digest_state (msg : list byte) : state :=
  let padded := pad (map byte_val msg) in
  fold_left process_block (blocks (List.length padded / 64) padded) initial_state.

Definition hex_chr (n : Z) : ascii :=
  nth (Z.to_nat n) (lit "0123456789abcdef") "0"%char.

Definition hex_byte (b : Z) : str :=
  [hex_chr (Z.shiftr b 4 mod 16); hex_chr (b mod 16)].

Definition hex_word (w : Z) : str :=
  hex_byte (Z.land w 0xff) ++ hex_byte (Z.land (Z.shiftr w 8) 0xff)
  ++ hex_byte (Z.land (Z.shiftr w 16) 0xff) ++ hex_byte (Z.land (Z.shiftr w 24) 0xff).

(** The digest of a message as 32 hexadecimal characters. *)
Definition hexdigest_of (msg : list byte) : str :=
  let '(A, B, C, D) := digest_state msg in
  hex_word A ++ hex_word B ++ hex_word C ++ hex_word D.

(** The object [hashlib.md5()]: it holds the message fed so far; [update]
    appends, [hexdigest] digests the whole. *)
Definition md5_object : Type := list byte.

Definition md5 : md5_object := [].

Definition update (m : md5_object) (chunk : list byte) : md5_object := m ++ chunk.

Definition hexdigest (m : md5_object) : str := hexdigest_of m.

End MD5.

(** ** Files *)

(** What the script sees of a file it opens for binary reading: opening may
    raise; otherwise the file has contents, and [fail_at = Some k] says that
    the read number [k] (from 0) raises. *)
Inductive binary_file : Type :=
| Unopenable
| Opened (data : list MD5.byte) (fail_at : option nat).

(** The successive results of [f.read(n)] on a file whose remaining contents
    are [l], up to the first empty one: pieces of [n] bytes, the last one
    shorter.  [cur] is the piece being filled. *)
Fixpoint reads_aux (n : nat) (cur l : list MD5.byte) : list (list MD5.byte) :=
  match l with
  | [] => match cur with [] => [] | _ => [cur] end
  | b :: r =>
      let cur' := cur ++ [b] in
      if (List.length cur' =? n)%nat then cur' :: reads_aux n [] r
      else reads_aux n cur' r
  end.

Definition reads (n : nat) (data : list MD5.byte) : list (list MD5.byte) :=
  reads_aux n [] data.

Definition fails_now (fail_at : option nat) (k : nat) : bool :=
  match fail_at with
  | Some j => (j =? k)%nat
  | None => false
  end.

(** The loop [for chunk in iter(lambda: f.read(4096), b""): md5.update(chunk)];
    [chunks] are the reads still to come before the empty one, [k] the number
    of the next read.  [None] when a read raises. *)
Fixpoint hash_loop (fail_at : option nat) (k : nat) (chunks : list (list MD5.byte))
  (md5 : MD5.md5_object) : option MD5.md5_object :=
  if fails_now fail_at k then None
  else match chunks with
       | [] => Some md5
       | chunk :: rest => hash_loop fail_at (S k) rest (MD5.update md5 chunk)
       end.

(** [_calculate_file_hash]: [file] is what [filename] denotes. *)
Definition _calculate_file_hash (file : binary_file) : str :=
  let md5 := MD5.md5 in
  match file with
  | Unopenable => lit "unknown"
  | Opened data fail_at =>
      match hash_loop fail_at 0 (reads 4096 data) md5 with
      | Some md5 => MD5.hexdigest md5
      | None => lit "unknown"
      end
  end.

(** ** The configuration *)

Record Configuration : Type := mkConfiguration {
  cfg_version : str;
  cfg_logging_level : str;
  cfg_inp_file : str;
  cfg_inp_file_hash : str;
  cfg_hydraulic_timestep : Z;
  cfg_comment : str;
  cfg_input_count : nat;
  cfg_output_count : nat;
  cfg_inputs : list entry;
  cfg_outputs : list entry
}.

(** The decimal digits of an integer, with its sign when negative. *)
Definition decimal_repr (n : Z) : str :=
  lit (DecimalString.NilZero.string_of_int (Z.to_int n)).

(** [str(n)] for an integer, which is also what an f-string makes of it:
    [ValueError] when [n] has more than 4300 digits, the limit that [int]
    has, and its decimal digits otherwise. *)
Definition str_of_int (n : Z) : result str :=
  if (int_max_str_digits <? List.length (decimal_repr (Z.abs n)))%nat
  then raise ValueError
  else ret (decimal_repr n).

(** [os.path.basename] of [posixpath]: what follows the last [/]. *)
Definition basename (path : str) : str := last (split "/"%char path) [].

Definition ElapsedTime_entry : entry :=
  mkEntry 0 (lit "ElapsedTime") SYSTEM (lit "ELAPSEDTIME").

(** The dictionary [config] of [generate_json], given the text
    [timestep_text] that its f-string makes of the hydraulic timestep. *)
Definition make_config (self : MappingGenerator) (logging_level : str)
  (source : binary_file) (timestep_text : str) : Configuration :=
  let all_inputs := [ElapsedTime_entry] ++ inputs self in
  let inp_hash := _calculate_file_hash source in
  mkConfiguration
    (lit "1.0") logging_level (basename (inp_file self)) inp_hash
    (hydraulic_timestep (parser self))
    (lit "IMPORTANT: Set GoldSim Basic Time Step to match hydraulic_timestep ("
       ++ timestep_text ++ lit " seconds)")
    (List.length all_inputs) (List.length (outputs self))
    all_inputs (outputs self).

(** The configuration of a generator: the dictionary [config] with the
    decimal digits of the timestep in its comment. *)
Definition build_config (self : MappingGenerator) (logging_level : str)
  (source : binary_file) : Configuration :=
  make_config self logging_level source
    (decimal_repr (hydraulic_timestep (parser self))).

(** [generate_json]: [source] is what [self.inp_file] denotes when it is
    hashed and [writable] says whether writing [output_file] succeeds.  The
    f-string of the comment is formatted outside the [try]: when it raises,
    so does the method.  Otherwise the result is the return value and the
    configuration written, if any. *)
Definition generate_json (self : MappingGenerator) (logging_level : str)
  (source : binary_file) (writable : bool)
  : result (bool * option Configuration) :=
  timestep_text <- str_of_int (hydraulic_timestep (parser self)) ;;
  let config := make_config self logging_level source timestep_text in
  if writable then ret (true, Some config) else ret (false, None).

(** ** [main] *)

(** The parsed command line. *)
Record args_t : Type := mkArgs {
  args_inp_file : str;
  args_inputs : option (list str);
  args_outputs : option (list str);
  args_output_file : str;
  args_quality : bool;
  args_logging_level : str
}.

(** The files the run touches. *)
Record env_t : Type := mkEnv {
  env_text : option str;
  env_binary : binary_file;
  env_writable : bool
}.

(** [for spec in specs: if not add(spec): return 1] *)
Fixpoint add_all (add : MappingGenerator -> str -> MappingGenerator * add_result)
  (specs : list str) (generator : MappingGenerator) : option MappingGenerator :=
  match specs with
  | [] => Some generator
  | spec :: rest =>
      match add generator spec with
      | (generator, Added) => add_all add rest generator
      | (_, Rejected _) => None
      end
  end.

Definition truthy {A} (l : option (list A)) : bool :=
  match l with
  | Some (_ :: _) => true
  | _ => false
  end.

(** [main]: the exit code and the configuration written, if any.  After
    parsing, the hydraulic timestep is formatted for the console; the later
    messages format the same integer again. *)
Definition main (args : args_t) (env : env_t) : result (Z * option Configuration) :=
  r <- parse EpanetInpParser_init (env_text env) ;;
  let '(ok, inp_parser) := r in
  if negb ok then ret (1, None)
  else
    timestep_text <- str_of_int (hydraulic_timestep inp_parser) ;;
    let generator := MappingGenerator_init inp_parser (args_inp_file args) in
    match (if truthy (args_inputs args)
           then add_all add_input (match args_inputs args with Some l => l | None => [] end) generator
           else Some generator) with
    | None => ret (1, None)
    | Some generator =>
        match (if truthy (args_outputs args)
               then add_all add_output (match args_outputs args with Some l => l | None => [] end) generator
               else Some (generate_default_outputs generator (args_quality args))) with
        | None => ret (1, None)
        | Some generator =>
            r <- generate_json generator (args_logging_level args)
                   (env_binary env) (env_writable env) ;;
            match r with
            | (true, written) => ret (0, written)
            | (false, _) => ret (1, None)
            end
        end
    end.

(** ** Notions of the specification *)

Definition chr_colon : ascii := ":"%char.
Definition chr_semicolon : ascii := ";"%char.

(** The text [m] is an instance of the literal [pat]. *)
Definition matches_literal (ignorecase : bool) (pat m : str) : Prop :=
  Forall2 (fun p c => chr_match ignorecase p c = true) pat m.

(** The literal [pat] occurs in [content] at offset [i]. *)
Definition occurs_at (ignorecase : bool) (pat content : str) (i : nat) : Prop :=
  exists pre m post,
    content = pre ++ m ++ post /\ List.length pre = i
    /\ matches_literal ignorecase pat m.

(** A newline followed by an opening bracket: where a line that begins with
    [[] starts. *)
Definition nl_bracket : str := [chr_nl; "["%char].

(** [body] is the body of the section [header] of [content]: it starts just
    after the first occurrence of the header, whatever the case of its
    letters, and runs to the next line that begins with [[], or to the
    end of the text. *)
Definition is_section_body (header content body : str) : Prop :=
  exists pre hdr rest,
    content = pre ++ hdr ++ body ++ rest
    /\ matches_literal true header hdr
    /\ (forall j, occurs_at true header content j -> (List.length pre <= j)%nat)
    /\ (forall j, ~ occurs_at false nl_bracket body j)
    /\ (rest = [] \/ exists rest', rest = nl_bracket ++ rest').

Fixpoint take_while (f : ascii -> bool) (s : str) : str :=
  match s with
  | c :: r => if f c then c :: take_while f r else []
  | [] => []
  end.

Fixpoint drop_while (f : ascii -> bool) (s : str) : str :=
  match s with
  | c :: r => if f c then drop_while f r else s
  | [] => []
  end.

(** The line without its comment: everything before the first [;]. *)
Definition before_semicolon (line : str) : str :=
  take_while (fun c => negb (Ascii.eqb c chr_semicolon)) line.

(** The first whitespace-delimited token of a line. *)
Definition first_token (line : str) : str :=
  take_while (fun c => negb (isspace c)) (lstrip line).

(** The lines of a section body that are left once comments are removed, the
    lines trimmed and the empty ones dropped, in the order of the text. *)
Definition element_lines (body : str) : list str :=
  filter (fun l => negb (is_empty l))
         (map (fun l => strip (before_semicolon l)) (split chr_nl body)).

(** The identifiers a section body contributes: the first token of each of
    its lines. *)
Definition ids_of_body (body : str) : list str :=
  map first_token (element_lines body).

(** The lines of the section [header] of [content]; none when the header
    does not occur. *)
Definition section_lines (header content : str) : list str :=
  match section_content header content with
  | Some body => element_lines body
  | None => []
  end.

(** Equality of two strings up to the case of their letters. *)
Definition eq_ignorecase (a b : str) : bool :=
  str_eqb (map tolower a) (map tolower b).

Fixpoint first_some {A B} (f : A -> option B) (l : list A) : option B :=
  match l with
  | [] => None
  | x :: r => match f x with Some y => Some y | None => first_some f r end
  end.

(** What a line of the OPTIONS section says about water quality, when the
    keyword test on its first token is [is_keyword]: nothing unless the first
    token passes the test and a second token follows; otherwise whether the
    second token, in upper case, differs from [NONE]. *)
Definition quality_line (is_keyword : str -> bool) (line : str) : option bool :=
  match split_ws line with
  | t1 :: t2 :: _ =>
      if is_keyword t1
      then Some (negb (codes_eqb (upper t2) (codes (lit "NONE"))))
      else None
  | _ => None
  end.

(** The first line of the OPTIONS section that says something decides;
    quality is disabled when there is none. *)
Definition quality_of_options (is_keyword : str -> bool) (content : str) : bool :=
  match first_some (quality_line is_keyword) (section_lines (lit "[OPTIONS]") content) with
  | Some v => v
  | None => false
  end.

(** The first token is the keyword [Quality] up to case. *)
Definition is_Quality (t : str) : bool := eq_ignorecase t (lit "Quality").

(** The first token begins with the keyword [Quality] up to case. *)
Definition begins_with_Quality (t : str) : bool := re_match_literal (lit "Quality") t.

(** Membership in the node, link and pattern categories of the model. *)
Definition is_node (p : EpanetInpParser) (id : str) : Prop :=
  In id (junctions p) \/ In id (reservoirs p) \/ In id (tanks p).

Definition is_link (p : EpanetInpParser) (id : str) : Prop :=
  In id (pipes p) \/ In id (pumps p) \/ In id (valves p).

Definition is_pattern (p : EpanetInpParser) (id : str) : Prop :=
  In id (patterns p).

(** Two models with the same element lists. *)
Definition same_lists (p q : EpanetInpParser) : Prop :=
  junctions p = junctions q /\ reservoirs p = reservoirs q
  /\ tanks p = tanks q /\ pipes p = pipes q /\ pumps p = pumps q
  /\ valves p = valves q /\ patterns p = patterns q.

(** Every entry of the list carries, as its index, [start] plus its position. *)
Definition indexed_from (start : nat) (l : list entry) : Prop :=
  forall i e, nth_error l i = Some e -> index e = (start + i)%nat.

(** The invariant of a configuration. *)
Definition config_invariant (c : Configuration) : Prop :=
  nth_error (cfg_inputs c) 0
  = Some (mkEntry 0 (lit "ElapsedTime") SYSTEM (lit "ELAPSEDTIME"))
  /\ cfg_input_count c = List.length (cfg_inputs c)
  /\ cfg_output_count c = List.length (cfg_outputs c)
  /\ indexed_from 0 (cfg_inputs c)
  /\ indexed_from 0 (cfg_outputs c).

(** The states a generator made for the model [p] and the file [f] can be in:
    the fresh one, and those its methods lead to. *)
Inductive reachable (p : EpanetInpParser) (f : str) : MappingGenerator -> Prop :=
| reachable_init : reachable p f (MappingGenerator_init p f)
| reachable_add_input g element_spec :
    reachable p f g -> reachable p f (fst (add_input g element_spec))
| reachable_add_output g element_spec :
    reachable p f g -> reachable p f (fst (add_output g element_spec))
| reachable_default_outputs g include_quality :
    reachable p f g -> reachable p f (generate_default_outputs g include_quality).

(** The entries [(name, object type, property)] numbered from [start]. *)
Fixpoint number_from (start : nat) (l : list (str * object_type_t * str)) : list entry :=
  match l with
  | [] => []
  | (id, t, prop) :: r => mkEntry start id t prop :: number_from (S start) r
  end.

Definition bindings (t : object_type_t) (prop : str) (ids : list str)
  : list (str * object_type_t * str) :=
  map (fun id => (id, t, prop)) ids.

(** The default outputs, in their order. *)
Definition default_bindings (p : EpanetInpParser) (include_quality : bool)
  : list (str * object_type_t * str) :=
  bindings NODE (lit "TANKLEVEL") (tanks p)
  ++ bindings NODE (lit "PRESSURE") (junctions p)
  ++ bindings LINK (lit "FLOW") (pipes p ++ pumps p ++ valves p)
  ++ (if include_quality
      then bindings NODE (lit "QUALITY") (junctions p ++ reservoirs p ++ tanks p)
           ++ bindings LINK (lit "QUALITY") (pipes p ++ pumps p ++ valves p)
      else []).



(** ** Sample inputs *)

Definition nl (a b : str) : str := a ++ chr_nl :: b.
Infix "//" := nl (at level 61, right associativity).

(** A TIMES section whose duration has a component that is not a number. *)
Definition malformed_duration_text : str :=
  lit "[TIMES]" // lit " Hydraulic Timestep  1:xx" // [].

(** A TIMES section with a negative duration. *)
Definition negative_duration_text : str :=
  lit "[JUNCTIONS]" // lit " J1  100" //
  lit "[TIMES]" // lit " Hydraulic Timestep  -1:00" // [].

(** An OPTIONS section whose only line begins with a longer word. *)
Definition longer_keyword_text : str :=
  lit "[OPTIONS]" // lit " QualityX   CHEMICAL" // [].

(** A small network file. *)
Definition sample_text : str :=
  lit "[TITLE]" // lit "sample" //
  lit "[Junctions]" // lit ";ID   Elev" // lit " J1   100 ; first" // lit "J2 5" // [] //
  lit "[TANKS]" // lit "T1 10" //
  lit "[PIPES]" // lit "P1 J1 J2" //
  lit "[PATTERNS]" // lit "J1 1.0 1.2" //
  lit "[times]" // lit " Duration 24:00" // lit " Hydraulic   Timestep 0:05" //
  lit "[OPTIONS]" // lit " Units GPM" // lit " quality None" // lit " quality Chemical mg/L" // [].

(** A model in which [J1] is a junction, a pipe and a pattern. *)
Definition sample_parser : EpanetInpParser :=
  mkParser [lit "J1"; lit "J2"] [] [lit "TANK_1"] [lit "P1"; lit "J1"] [] []
           [lit "J1"; lit "P1"; lit "PAT"] 3600 false.

Definition sample_generator : MappingGenerator :=
  MappingGenerator_init sample_parser (lit "net.inp").


(** The six element-list sections and the list each one fills. *)
Definition element_sections : list (str * (EpanetInpParser -> list str)) :=
  [(lit "[JUNCTIONS]", junctions); (lit "[RESERVOIRS]", reservoirs);
   (lit "[TANKS]", tanks); (lit "[PIPES]", pipes); (lit "[PUMPS]", pumps);
   (lit "[VALVES]", valves)].

(** The body of the junction section of [sample_text]. *)
Definition sample_junctions_body : str :=
  [] // lit ";ID   Elev" // lit " J1   100 ; first" // lit "J2 5" // [].

(** A command line without explicit inputs or outputs. *)
Definition sample_args : args_t :=
  mkArgs (lit "net.inp") None None (lit "EpanetBridge.json") false (lit "INFO").

(** Files: the model holds [content], hashing it fails, writing succeeds. *)
Definition sample_env (content : str) : env_t :=
  mkEnv (Some content) Unopenable true.

(** ** Further notions *)

Definition not_space (c : ascii) : bool := negb (isspace c).

(** What a line of the TIMES section says about the hydraulic timestep: its
    third token, when the first token is [Hydraulic] up to case and the second
    begins with [Timestep] up to case; nothing otherwise. *)
Definition timestep_line (line : str) : option str :=
  match split_ws line with
  | t1 :: t2 :: t3 :: _ =>
      if eq_ignorecase t1 (lit "Hydraulic") && re_match_literal (lit "Timestep") t2
      then Some t3
      else None
  | _ => None
  end.

(** The number a string of decimal digits denotes. *)
Definition decimal_value (s : str) : Z :=
  fold_left (fun acc c => acc * 10 + digit_value c) s 0.

(** A string of one to 4300 decimal digits. *)
Definition is_decimal (s : str) : Prop :=
  s <> [] /\ forallb isdigit s = true /\ (List.length s <= int_max_str_digits)%nat.

(** The specification string [id:property] of a binding. *)
Definition spec_of (b : str * object_type_t * str) : str :=
  let '(id, _, prop) := b in id ++ chr_colon :: prop.

(** Whether a specification string is accepted as an input, or as an
    output, of the model [p]: what the method returns on a fresh generator. *)
Definition accepts_input (p : EpanetInpParser) (spec : str) : bool :=
  returns_true (snd (add_input (MappingGenerator_init p []) spec)).

Definition accepts_output (p : EpanetInpParser) (spec : str) : bool :=
  returns_true (snd (add_output (MappingGenerator_init p []) spec)).

(** The two parts of a specification string. *)
Definition id_part (spec : str) : str := nth 0 (split chr_colon spec) [].
Definition property_part (spec : str) : str := nth 1 (split chr_colon spec) [].

(** The list behind an option of the command line that can be repeated. *)
Definition given (l : option (list str)) : list str :=
  match l with Some l => l | None => [] end.

(** The element an entry names belongs to the category of its type. *)
Definition names_element (p : EpanetInpParser) (e : entry) : Prop :=
  match object_type e with
  | NODE => is_node p (name e)
  | LINK => is_link p (name e)
  | PATTERN => is_pattern p (name e)
  | SYSTEM => False
  end.

(** A junction whose identifier holds a colon. *)
Definition colon_id_text : str :=
  lit "[JUNCTIONS]" // lit " J:1  100" // [].

(** * Properties *)

(** ** Strings *)

Lemma str_eqb_eq (a b : str) : str_eqb a b = true <-> a = b.
Proof.
  unfold str_eqb. destruct (list_eq_dec ascii_dec a b); split; congruence.
Qed.

Lemma str_in_In (x : str) (l : list str) : str_in x l = true <-> In x l.
Proof.
  unfold str_in. rewrite existsb_exists. split.
  - intros [y [Hy He]]. apply str_eqb_eq in He. now subst.
  - intros H. exists x. split; [exact H | now apply str_eqb_eq].
Qed.

Lemma str_in_false (x : str) (l : list str) : str_in x l = false <-> ~ In x l.
Proof.
  rewrite <- str_in_In. destruct (str_in x l); split; congruence.
Qed.

Lemma split_not_nil (sep : ascii) (s : str) : split sep s <> [].
Proof.
  destruct s as [| c r]; simpl; [discriminate |].
  destruct (Ascii.eqb c sep); [discriminate |].
  destruct (split sep r); discriminate.
Qed.

Lemma split_cons_sep (sep : ascii) (r : str) :
  split sep (sep :: r) = [] :: split sep r.
Proof. simpl. now rewrite Ascii.eqb_refl. Qed.

Lemma split_cons_other (sep c : ascii) (r : str) :
  c <> sep ->
  exists p ps, split sep r = p :: ps /\ split sep (c :: r) = (c :: p) :: ps.
Proof.
  intros Hc. simpl. apply Ascii.eqb_neq in Hc. rewrite Hc.
  destruct (split sep r) as [| p ps] eqn:E.
  - now apply split_not_nil in E.
  - now exists p, ps.
Qed.

(** The number of pieces is one more than the number of separators. *)
Lemma split_length (sep : ascii) (s : str) :
  List.length (split sep s) = S (count_occ ascii_dec s sep).
Proof.
  induction s as [| c r IH]; [reflexivity |].
  destruct (ascii_dec c sep) as [-> | Hc].
  - rewrite split_cons_sep. simpl. rewrite IH.
    destruct (ascii_dec sep sep); congruence.
  - destruct (split_cons_other sep c r Hc) as [p [ps [E1 E2]]].
    rewrite E2. rewrite E1 in IH. simpl in *.
    destruct (ascii_dec c sep); [contradiction | exact IH].
Qed.

Lemma split_app_sep (sep : ascii) (a b : str) :
  ~ In sep a -> split sep (a ++ sep :: b) = a :: split sep b.
Proof.
  induction a as [| c a IH]; intros Hin.
  - apply split_cons_sep.
  - assert (Hc : c <> sep) by (intros ->; apply Hin; now left).
    assert (Ha : ~ In sep a) by (intros H; apply Hin; now right).
    change ((c :: a) ++ sep :: b) with (c :: (a ++ sep :: b)).
    destruct (split_cons_other sep c (a ++ sep :: b) Hc) as [p [ps [E1 E2]]].
    rewrite E2. rewrite (IH Ha) in E1. now inversion E1.
Qed.

Lemma split_no_sep (sep : ascii) (a : str) :
  ~ In sep a -> split sep a = [a].
Proof.
  induction a as [| c a IH]; intros Hin; [reflexivity |].
  assert (Hc : c <> sep) by (intros ->; apply Hin; now left).
  assert (Ha : ~ In sep a) by (intros H; apply Hin; now right).
  destruct (split_cons_other sep c a Hc) as [p [ps [E1 E2]]].
  rewrite E2. rewrite (IH Ha) in E1. now inversion E1.
Qed.

(** A string with exactly one separator is two pieces around it. *)
Lemma count_one_split (sep : ascii) (s : str) :
  count_occ ascii_dec s sep = 1%nat ->
  exists a b, s = a ++ sep :: b /\ ~ In sep a /\ ~ In sep b.
Proof.
  induction s as [| c r IH]; simpl; [discriminate |].
  destruct (ascii_dec c sep) as [-> | Hc]; intros H.
  - exists [], r. split; [reflexivity |]. split; [intros [] |].
    apply (count_occ_not_In ascii_dec). lia.
  - destruct (IH H) as [a [b [E [Ha Hb]]]].
    exists (c :: a), b. subst r. split; [reflexivity |]. split; [| exact Hb].
    intros [Hx | Hx]; [now apply Hc | now apply Ha].
Qed.

(** The first piece is the text before the first separator. *)
Lemma split_first (sep : ascii) (s : str) :
  nth 0 (split sep s) [] = take_while (fun c => negb (Ascii.eqb c sep)) s.
Proof.
  induction s as [| c r IH]; [reflexivity |].
  destruct (ascii_dec c sep) as [-> | Hc].
  - rewrite split_cons_sep. simpl. now rewrite Ascii.eqb_refl.
  - destruct (split_cons_other sep c r Hc) as [p [ps [E1 E2]]].
    rewrite E2. rewrite E1 in IH. simpl in *.
    apply Ascii.eqb_neq in Hc. rewrite Hc. simpl. now rewrite IH.
Qed.

Lemma clean_line_eq (line : str) :
  clean_line line = strip (before_semicolon line).
Proof. unfold clean_line, before_semicolon. now rewrite split_first. Qed.

(** [lstrip] removes a run of whitespace from the front. *)
Lemma lstrip_suffix (s : str) :
  exists ws, s = ws ++ lstrip s /\ forallb isspace ws = true.
Proof.
  induction s as [| c r [ws [E H]]].
  - now exists [].
  - simpl. destruct (isspace c) eqn:Hc.
    + exists (c :: ws). simpl. rewrite Hc, H. split; [now f_equal | reflexivity].
    + now exists [].
Qed.

Lemma lstrip_head (s : str) c r : lstrip s = c :: r -> isspace c = false.
Proof.
  induction s as [| d s IH]; simpl; [discriminate |].
  destruct (isspace d) eqn:Hd; [exact IH |].
  intros E. inversion E. now subst.
Qed.

Lemma lstrip_fixed (s : str) c r : s = c :: r -> isspace c = false -> lstrip s = s.
Proof. intros -> H. simpl. now rewrite H. Qed.

Lemma rstrip_prefix (s : str) :
  exists ws, s = rstrip s ++ ws /\ forallb isspace ws = true.
Proof.
  unfold rstrip. destruct (lstrip_suffix (rev s)) as [ws [E H]].
  exists (rev ws). split.
  - rewrite <- rev_app_distr, <- E. now rewrite rev_involutive.
  - rewrite forallb_forall in *. intros x Hx. apply H. now apply in_rev.
Qed.

(** A stripped line that is not empty begins with a character that is not
    whitespace. *)
Lemma strip_head (s : str) c r : strip s = c :: r -> isspace c = false.
Proof.
  unfold strip. intros E.
  destruct (rstrip_prefix (lstrip s)) as [ws [E1 _]].
  rewrite E in E1. simpl in E1. now apply lstrip_head in E1.
Qed.

Lemma split_ws_aux_some (w s : str) :
  split_ws_aux (Some w) s
  = (w ++ take_while (fun c => negb (isspace c)) s)
      :: split_ws_aux None (drop_while (fun c => negb (isspace c)) s).
Proof.
  revert w. induction s as [| c r IH]; intros w; simpl.
  - now rewrite app_nil_r.
  - destruct (isspace c) eqn:Hc; simpl.
    + now rewrite app_nil_r, Hc.
    + rewrite IH. now rewrite <- app_assoc.
Qed.

(** The tokens of a line that does not begin with whitespace: its first
    token, then the tokens of what follows. *)
Lemma split_ws_head (c : ascii) (r : str) :
  isspace c = false ->
  split_ws (c :: r)
  = first_token (c :: r)
      :: split_ws (drop_while (fun c => negb (isspace c)) r).
Proof.
  intros Hc. unfold split_ws, first_token. simpl. rewrite Hc. simpl.
  rewrite split_ws_aux_some. now rewrite Hc.
Qed.

(** ** Literal patterns *)

Lemma match_literal_sound ic (pat s r : str) :
  match_literal ic pat s = Some r ->
  exists m, s = m ++ r /\ matches_literal ic pat m.
Proof.
  revert s. induction pat as [| p pat IH]; intros s H; simpl in H.
  - inversion H. exists []. split; [reflexivity | constructor].
  - destruct s as [| c s']; [discriminate |].
    destruct (chr_match ic p c) eqn:Hc; [| discriminate].
    destruct (IH _ H) as [m [E Hm]].
    exists (c :: m). split; [simpl; now f_equal | now constructor].
Qed.

Lemma match_literal_complete ic (pat m r : str) :
  matches_literal ic pat m -> match_literal ic pat (m ++ r) = Some r.
Proof.
  intros H. induction H as [| p c pat m Hc _ IH]; [reflexivity |].
  simpl. now rewrite Hc.
Qed.

Lemma matches_literal_length ic (pat m : str) :
  matches_literal ic pat m -> List.length m = List.length pat.
Proof. intros H. symmetry. exact (Forall2_length H). Qed.

Lemma occurs_at_0 ic (pat s : str) :
  occurs_at ic pat s 0 <-> exists r, match_literal ic pat s = Some r.
Proof.
  split.
  - intros [pre [m [post [E [Hl Hm]]]]].
    destruct pre; [| discriminate]. simpl in E. subst s.
    exists post. now apply match_literal_complete.
  - intros [r H]. destruct (match_literal_sound _ _ _ _ H) as [m [E Hm]].
    now exists [], m, r.
Qed.

Lemma occurs_at_S ic (pat : str) c (s : str) j :
  occurs_at ic pat (c :: s) (S j) <-> occurs_at ic pat s j.
Proof.
  split.
  - intros [pre [m [post [E [Hl Hm]]]]].
    destruct pre as [| d pre]; [discriminate |].
    simpl in E, Hl. inversion E. exists pre, m, post. repeat split; auto.
  - intros [pre [m [post [E [Hl Hm]]]]].
    exists (c :: pre), m, post. simpl. subst. repeat split; auto.
Qed.

(** [re_search] finds the leftmost occurrence. *)
Lemma re_search_some ic (pat s : str) a b :
  re_search ic pat s = Some (a, b) ->
  b = (a + List.length pat)%nat /\ occurs_at ic pat s a
  /\ forall j, occurs_at ic pat s j -> (a <= j)%nat.
Proof.
  revert a b. induction s as [| c s IH]; intros a b H; simpl in H.
  - destruct (match_literal ic pat []) eqn:E; [| discriminate].
    inversion H; subst. repeat split; [| intros; lia].
    apply occurs_at_0. eauto.
  - destruct (match_literal ic pat (c :: s)) eqn:E.
    + inversion H; subst. repeat split; [| intros; lia].
      apply occurs_at_0. eauto.
    + destruct (re_search ic pat s) as [[a' b'] |] eqn:R; [| discriminate].
      inversion H; subst. destruct (IH _ _ eq_refl) as [-> [Ho Hmin]].
      repeat split.
      * now apply occurs_at_S.
      * intros [| j] Hj.
        -- apply occurs_at_0 in Hj. destruct Hj as [r Hr]. congruence.
        -- apply occurs_at_S in Hj. apply Hmin in Hj. lia.
Qed.

Lemma re_search_none ic (pat s : str) :
  re_search ic pat s = None -> forall j, ~ occurs_at ic pat s j.
Proof.
  induction s as [| c s IH]; intros H j Hj; simpl in H.
  - destruct (match_literal ic pat []) eqn:E; [discriminate |].
    destruct Hj as [pre [m [post [E' [Hl Hm]]]]].
    destruct pre; [| discriminate]. simpl in Hl. subst j.
    assert (Ho : occurs_at ic pat [] 0) by now exists [], m, post.
    apply occurs_at_0 in Ho. destruct Ho as [r Hr]. congruence.
  - destruct (match_literal ic pat (c :: s)) eqn:E; [discriminate |].
    destruct (re_search ic pat s) as [[a' b'] |] eqn:R; [discriminate |].
    destruct j as [| j].
    + apply occurs_at_0 in Hj. destruct Hj as [r Hr]. congruence.
    + apply occurs_at_S in Hj. exact (IH eq_refl j Hj).
Qed.

(** The leftmost occurrence determines the result of [re_search]. *)
Lemma re_search_leftmost ic (pat s : str) a :
  occurs_at ic pat s a ->
  (forall j, occurs_at ic pat s j -> (a <= j)%nat) ->
  re_search ic pat s = Some (a, (a + List.length pat)%nat).
Proof.
  intros Ho Hmin.
  destruct (re_search ic pat s) as [[a' b'] |] eqn:R.
  - destruct (re_search_some _ _ _ _ _ R) as [-> [Ho' Hmin']].
    assert (a = a') by (apply Nat.le_antisymm; auto). now subst.
  - exfalso. exact (re_search_none _ _ _ R a Ho).
Qed.

(** ** Section bodies *)

Lemma chr_match_exact (p c : ascii) : chr_match false p c = true <-> c = p.
Proof. unfold chr_match. apply Ascii.eqb_eq. Qed.

Lemma occurs_at_nl_bracket_0 (s : str) :
  occurs_at false nl_bracket s 0 <-> exists r, s = nl_bracket ++ r.
Proof.
  rewrite occurs_at_0. unfold nl_bracket. split.
  - intros [r H]. destruct (match_literal_sound _ _ _ _ H) as [m [E Hm]].
    inversion Hm as [| p c ps m' Hc Hm' ]; subst.
    inversion Hm' as [| p2 c2 ps2 m2 Hc2 Hm2 ]; subst.
    inversion Hm2; subst.
    apply chr_match_exact in Hc, Hc2. subst. now exists r.
  - intros [r ->]. exists r. reflexivity.
Qed.

(** When no line of [body] begins with a bracket, the first such line of
    [body] followed by one is the one that follows. *)
Lemma nl_bracket_after_body (body rest' : str) j :
  (forall i, ~ occurs_at false nl_bracket body i) ->
  occurs_at false nl_bracket (body ++ nl_bracket ++ rest') j ->
  (List.length body <= j)%nat.
Proof.
  revert j. induction body as [| c b IH]; intros j Hno Hj; [simpl; lia |].
  destruct j as [| j].
  - exfalso. apply occurs_at_nl_bracket_0 in Hj. destruct Hj as [r E].
    simpl in E. inversion E as [[Hc E']]. destruct b as [| d b'].
    + simpl in E'. unfold chr_nl in E'. inversion E'.
    + simpl in E'. inversion E'. subst.
      apply (Hno 0%nat). apply occurs_at_nl_bracket_0. now exists b'.
  - simpl in Hj. apply occurs_at_S in Hj. simpl. apply le_n_S. apply IH; [| exact Hj].
    intros i Hi. apply (Hno (S i)). now apply occurs_at_S.
Qed.

Lemma occurs_at_app_length ic (pat pre m post : str) :
  matches_literal ic pat m -> occurs_at ic pat (pre ++ m ++ post) (List.length pre).
Proof. intros H. now exists pre, m, post. Qed.

Lemma skipn_app_exact {A} (l1 l2 : list A) n :
  n = List.length l1 -> skipn n (l1 ++ l2) = l2.
Proof.
  intros ->. rewrite skipn_app, skipn_all, Nat.sub_diag. reflexivity.
Qed.

Lemma firstn_app_exact {A} (l1 l2 : list A) n :
  n = List.length l1 -> firstn n (l1 ++ l2) = l1.
Proof.
  intros ->. rewrite firstn_app, firstn_all, Nat.sub_diag. simpl.
  now rewrite app_nil_r.
Qed.

(** The body the method cuts out is the body of the section. *)
Lemma section_content_body (header content body : str) :
  is_section_body header content body ->
  section_content header content = Some body.
Proof.
  intros [pre [hdr [rest [E [Hm [Hmin [Hno Hrest]]]]]]].
  unfold section_content. fold nl_bracket.
  assert (Hs : re_search true header content
               = Some (List.length pre, (List.length pre + List.length header)%nat)).
  { apply re_search_leftmost; [| exact Hmin].
    rewrite E. now apply occurs_at_app_length. }
  rewrite Hs.
  assert (Hl : List.length hdr = List.length header)
    by now apply matches_literal_length in Hm.
  assert (Hskip : skipn (List.length pre + List.length header) content = body ++ rest).
  { rewrite E, app_assoc. apply skipn_app_exact. rewrite length_app. lia. }
  assert (Hlen : List.length content
                 = (List.length pre + List.length header + List.length body
                    + List.length rest)%nat).
  { rewrite E, !length_app. lia. }
  unfold slice. rewrite Hskip.
  destruct Hrest as [Hr | [rest' Hr]]; subst rest.
  - rewrite app_nil_r in *.
    destruct (re_search false nl_bracket body) as [[a b] |] eqn:R.
    + exfalso. destruct (re_search_some _ _ _ _ _ R) as [_ [Ho _]].
      exact (Hno a Ho).
    + f_equal. rewrite firstn_all2; [reflexivity |]. lia.
  - assert (R : re_search false nl_bracket (body ++ nl_bracket ++ rest')
                = Some (List.length body, (List.length body + List.length nl_bracket)%nat)).
    { apply re_search_leftmost.
      - apply occurs_at_app_length. unfold nl_bracket.
        repeat constructor; apply chr_match_exact; reflexivity.
      - intros j Hj. now apply (nl_bracket_after_body body rest'). }
    rewrite R. f_equal.
    apply firstn_app_exact. lia.
Qed.

Lemma section_content_absent (header content : str) :
  (forall j, ~ occurs_at true header content j) ->
  section_content header content = None.
Proof.
  intros H. unfold section_content.
  destruct (re_search true header content) as [[a b] |] eqn:R; [| reflexivity].
  exfalso. destruct (re_search_some _ _ _ _ _ R) as [_ [Ho _]]. exact (H a Ho).
Qed.

(** The loop of [_parse_section] appends the first token of each line that
    is left. *)
Lemma parse_section_loop (lines : list str) (out : list str) :
  fold_left
    (fun out line =>
       let line := clean_line line in
       if is_empty line then out
       else match split_ws line with
            | element_id :: _ => out ++ [element_id]
            | [] => out
            end) lines out
  = out ++ map first_token
             (filter (fun l => negb (is_empty l))
                     (map (fun l => strip (before_semicolon l)) lines)).
Proof.
  revert out. induction lines as [| line lines IH]; intros out; simpl.
  - now rewrite app_nil_r.
  - rewrite IH, clean_line_eq.
    destruct (strip (before_semicolon line)) as [| c r] eqn:E; simpl; [reflexivity |].
    rewrite (split_ws_head c r (strip_head _ _ _ E)).
    now rewrite <- app_assoc.
Qed.

Lemma parse_section_present (content header body : str) (out : list str) :
  section_content header content = Some body ->
  _parse_section content header out = out ++ ids_of_body body.
Proof.
  intros H. unfold _parse_section. rewrite H. apply parse_section_loop.
Qed.

Lemma parse_section_absent (content header : str) (out : list str) :
  section_content header content = None ->
  _parse_section content header out = out.
Proof. intros H. unfold _parse_section. now rewrite H. Qed.

Lemma matches_literal_exact (pat m : str) :
  matches_literal false pat m -> m = pat.
Proof.
  intros H. induction H as [| p c pat m Hc _ IH]; [reflexivity |].
  apply chr_match_exact in Hc. now subst.
Qed.

(** Conversely, what the method cuts out is a section body. *)
Lemma section_content_is_body (header content body : str) :
  section_content header content = Some body ->
  is_section_body header content body.
Proof.
  unfold section_content. fold nl_bracket.
  destruct (re_search true header content) as [[a b] |] eqn:R; [| discriminate].
  destruct (re_search_some _ _ _ _ _ R) as [-> [[pre [hdr [post [E [Hl Hm]]]]] Hmin]].
  assert (Hh : List.length hdr = List.length header)
    by now apply matches_literal_length in Hm.
  assert (Hskip : skipn (a + List.length header) content = post).
  { rewrite E, app_assoc. apply skipn_app_exact. rewrite length_app. lia. }
  unfold slice. rewrite Hskip.
  destruct (re_search false nl_bracket post) as [[n e] |] eqn:R2; intros H; inversion H; clear H.
  - destruct (re_search_some _ _ _ _ _ R2) as [_ [[pre2 [m2 [post2 [E2 [Hl2 Hm2]]]]] Hmin2]].
    apply matches_literal_exact in Hm2. subst m2.
    replace (a + List.length header + n - (a + List.length header))%nat with n by lia.
    rewrite E2. rewrite (firstn_app_exact pre2 _ n (eq_sym Hl2)).
    exists pre, hdr, (nl_bracket ++ post2). repeat split.
    + now rewrite E, E2.
    + exact Hm.
    + intros j Hj. rewrite Hl. now apply Hmin.
    + intros j [x [m [y [Ex [Hx Hmx]]]]].
      apply matches_literal_exact in Hmx. subst m.
      assert (Ho : occurs_at false nl_bracket post j).
      { exists x, nl_bracket, (y ++ nl_bracket ++ post2). repeat split.
        - rewrite E2, Ex. now rewrite <- !app_assoc.
        - exact Hx.
        - unfold nl_bracket. repeat constructor; apply chr_match_exact; reflexivity. }
      apply Hmin2 in Ho.
      assert (List.length pre2 = (j + 2 + List.length y)%nat).
      { rewrite Ex, !length_app. simpl. lia. }
      lia.
    + right. now exists post2.
  - rewrite firstn_all2.
    + exists pre, hdr, []. repeat split.
      * now rewrite app_nil_r.
      * exact Hm.
      * intros j Hj. rewrite Hl. now apply Hmin.
      * exact (re_search_none _ _ _ R2).
      * now left.
    + rewrite E, !length_app. lia.
Qed.

Lemma section_content_none (header content : str) :
  section_content header content = None ->
  forall j, ~ occurs_at true header content j.
Proof.
  unfold section_content.
  destruct (re_search true header content) as [[a b] |] eqn:R; [discriminate |].
  intros _. exact (re_search_none _ _ _ R).
Qed.

(** ** The parser's passes *)

Lemma same_lists_refl p : same_lists p p.
Proof. repeat split. Qed.

Lemma times_loop_frame lines self self' :
  times_loop lines self = inr self' ->
  same_lists self self' /\ quality_enabled self' = quality_enabled self.
Proof.
  induction lines as [| line lines IH]; cbn [times_loop]; intros H.
  - inversion H. split; [apply same_lists_refl | reflexivity].
  - destruct (is_empty (clean_line line)); [now apply IH |].
    destruct (re_match_hydraulic_timestep (clean_line line)); [| now apply IH].
    destruct (3 <=? List.length (split_ws (clean_line line)))%nat; [| now apply IH].
    destruct (_parse_time_string (nth 2 (split_ws (clean_line line)) [])) as [e | v];
      simpl in H; [discriminate |].
    inversion H. split; [repeat split | reflexivity].
Qed.

Lemma quality_loop_frame lines self :
  same_lists self (quality_loop lines self)
  /\ hydraulic_timestep (quality_loop lines self) = hydraulic_timestep self.
Proof.
  induction lines as [| line lines IH]; cbn [quality_loop].
  - split; [apply same_lists_refl | reflexivity].
  - destruct (is_empty (clean_line line)); [exact IH |].
    destruct (re_match_literal (lit "Quality") (clean_line line)); [| exact IH].
    destruct (2 <=? List.length (split_ws (clean_line line)))%nat; [| exact IH].
    split; [repeat split | reflexivity].
Qed.

Lemma parse_times_frame self content self' :
  _parse_times_section self content = inr self' ->
  same_lists self self' /\ quality_enabled self' = quality_enabled self.
Proof.
  unfold _parse_times_section.
  destruct (section_content (lit "[TIMES]") content).
  - apply times_loop_frame.
  - intros H. inversion H. split; [apply same_lists_refl | reflexivity].
Qed.

Lemma parse_quality_frame self content :
  same_lists self (_parse_quality_section self content)
  /\ hydraulic_timestep (_parse_quality_section self content) = hydraulic_timestep self.
Proof.
  unfold _parse_quality_section.
  destruct (section_content (lit "[OPTIONS]") content).
  - apply quality_loop_frame.
  - split; [apply same_lists_refl | reflexivity].
Qed.

(** What [parse] returns when it returns: the lists of the seven section
    scans, and the options of the two option passes run in turn. *)
Lemma parse_returns (self : EpanetInpParser) (content : str) ok p :
  parse self (Some content) = inr (ok, p) ->
  ok = true
  /\ exists p1,
      _parse_times_section
        (mkParser
           (_parse_section content (lit "[JUNCTIONS]") (junctions self))
           (_parse_section content (lit "[RESERVOIRS]") (reservoirs self))
           (_parse_section content (lit "[TANKS]") (tanks self))
           (_parse_section content (lit "[PIPES]") (pipes self))
           (_parse_section content (lit "[PUMPS]") (pumps self))
           (_parse_section content (lit "[VALVES]") (valves self))
           (_parse_section content (lit "[PATTERNS]") (patterns self))
           (hydraulic_timestep self) (quality_enabled self)) content = inr p1
      /\ p = _parse_quality_section p1 content.
Proof.
  unfold parse.
  destruct (_parse_times_section _ content) as [e | p1] eqn:E; simpl; [discriminate |].
  intros H. inversion H. split; [reflexivity |]. now exists p1.
Qed.

(** Each of the seven lists of a parsed model is what [_parse_section] makes
    of its section. *)
Lemma parse_lists (content : str) ok (p : EpanetInpParser) :
  parse EpanetInpParser_init (Some content) = inr (ok, p) ->
  junctions p = _parse_section content (lit "[JUNCTIONS]") []
  /\ reservoirs p = _parse_section content (lit "[RESERVOIRS]") []
  /\ tanks p = _parse_section content (lit "[TANKS]") []
  /\ pipes p = _parse_section content (lit "[PIPES]") []
  /\ pumps p = _parse_section content (lit "[PUMPS]") []
  /\ valves p = _parse_section content (lit "[VALVES]") []
  /\ patterns p = _parse_section content (lit "[PATTERNS]") [].
Proof.
  intros H. apply parse_returns in H. destruct H as [_ [p1 [H1 ->]]].
  apply parse_times_frame in H1. destruct H1 as [H1 _].
  destruct (parse_quality_frame p1 content) as [H2 _].
  destruct H1 as [A1 [A2 [A3 [A4 [A5 [A6 A7]]]]]].
  destruct H2 as [B1 [B2 [B3 [B4 [B5 [B6 B7]]]]]].
  simpl in A1, A2, A3, A4, A5, A6, A7.
  rewrite <- B1, <- B2, <- B3, <- B4, <- B5, <- B6, <- B7.
  rewrite <- A1, <- A2, <- A3, <- A4, <- A5, <- A6, <- A7.
  repeat split.
Qed.

(** ** The Quality option *)

(** No character that matches a letter of [Quality] is whitespace. *)
Lemma Quality_letters_not_space (c : ascii) :
  forallb (fun p => implb (chr_match true p c) (negb (isspace c))) (lit "Quality") = true.
Proof.
  destruct c as [[] [] [] [] [] [] [] []]; reflexivity.
Qed.

(** A literal made of such letters matches a text exactly when it matches
    the first run of characters that are not whitespace. *)
Lemma match_literal_first_run (pat s : str) :
  (forall c, forallb (fun p => implb (chr_match true p c) (negb (isspace c))) pat = true) ->
  re_match_literal pat s
  = re_match_literal pat (take_while (fun c => negb (isspace c)) s).
Proof.
  unfold re_match_literal. revert s.
  induction pat as [| p pat IH]; intros s Hp; [reflexivity |].
  assert (Hp' : forall c, forallb (fun p => implb (chr_match true p c) (negb (isspace c))) pat = true).
  { intros c. specialize (Hp c). cbn [forallb] in Hp. now apply andb_true_iff in Hp. }
  destruct s as [| c r]; [reflexivity |]. cbn [match_literal take_while].
  destruct (chr_match true p c) eqn:Hc.
  - specialize (Hp c). cbn [forallb] in Hp. rewrite Hc in Hp. cbn [implb] in Hp.
    apply andb_true_iff in Hp. destruct Hp as [Hs _]. rewrite Hs.
    cbn [match_literal]. rewrite Hc. now apply IH.
  - destruct (negb (isspace c)); cbn [match_literal]; [now rewrite Hc | reflexivity].
Qed.

Lemma Quality_on_first_token c (r : str) :
  isspace c = false ->
  re_match_literal (lit "Quality") (c :: r)
  = begins_with_Quality (first_token (c :: r)).
Proof.
  intros Hc. unfold begins_with_Quality, first_token.
  rewrite (lstrip_fixed (c :: r) c r eq_refl Hc).
  apply match_literal_first_run. exact Quality_letters_not_space.
Qed.

(** The loop of [_parse_quality_section] stops at the first line whose first
    token begins with [Quality] and that has a second token. *)
Lemma quality_loop_spec (lines : list str) (self : EpanetInpParser) :
  quality_enabled (quality_loop lines self)
  = match first_some (quality_line begins_with_Quality)
            (filter (fun l => negb (is_empty l))
                    (map (fun l => strip (before_semicolon l)) lines)) with
    | Some v => v
    | None => quality_enabled self
    end.
Proof.
  induction lines as [| line lines IH]; cbn [quality_loop]; [reflexivity |].
  rewrite clean_line_eq. cbn [map filter].
  destruct (strip (before_semicolon line)) as [| c r] eqn:E; cbn [is_empty negb];
    [exact IH |].
  assert (Hc : isspace c = false) by exact (strip_head _ _ _ E).
  cbn [first_some]. unfold quality_line at 1.
  rewrite (Quality_on_first_token c r Hc), (split_ws_head c r Hc).
  destruct (split_ws (drop_while (fun c0 => negb (isspace c0)) r)) as [| t2 rest].
  - destruct (begins_with_Quality (first_token (c :: r))); exact IH.
  - destruct (begins_with_Quality (first_token (c :: r))); [reflexivity | exact IH].
Qed.

Lemma parse_quality_section_spec (self : EpanetInpParser) (content : str) :
  quality_enabled (_parse_quality_section self content)
  = match first_some (quality_line begins_with_Quality)
            (section_lines (lit "[OPTIONS]") content) with
    | Some v => v
    | None => quality_enabled self
    end.
Proof.
  unfold _parse_quality_section, section_lines.
  destruct (section_content (lit "[OPTIONS]") content) as [body |]; [| reflexivity].
  apply quality_loop_spec.
Qed.

(** ** The builder *)

Lemma get_object_type_cases (g : MappingGenerator) (id : str) :
  (is_node (parser g) id /\ _get_object_type g id = Some NODE)
  \/ (~ is_node (parser g) id /\ is_link (parser g) id
      /\ _get_object_type g id = Some LINK)
  \/ (~ is_node (parser g) id /\ ~ is_link (parser g) id
      /\ is_pattern (parser g) id /\ _get_object_type g id = Some PATTERN)
  \/ (~ is_node (parser g) id /\ ~ is_link (parser g) id
      /\ ~ is_pattern (parser g) id /\ _get_object_type g id = None).
Proof.
  unfold _get_object_type, is_node, is_link, is_pattern.
  destruct (str_in id (junctions (parser g))) eqn:J;
    [left; split; [left; now apply str_in_In | reflexivity] |].
  destruct (str_in id (reservoirs (parser g))) eqn:R;
    [left; split; [right; left; now apply str_in_In | reflexivity] |].
  destruct (str_in id (tanks (parser g))) eqn:T;
    [left; split; [right; right; now apply str_in_In | reflexivity] |].
  apply str_in_false in J, R, T.
  assert (Hn : ~ (In id (junctions (parser g)) \/ In id (reservoirs (parser g))
                  \/ In id (tanks (parser g)))) by tauto.
  right. cbn [orb].
  destruct (str_in id (pipes (parser g))) eqn:P;
    [left; split; [exact Hn | split; [left; now apply str_in_In | reflexivity]] |].
  destruct (str_in id (pumps (parser g))) eqn:U;
    [left; split; [exact Hn | split; [right; left; now apply str_in_In | reflexivity]] |].
  destruct (str_in id (valves (parser g))) eqn:V;
    [left; split; [exact Hn | split; [right; right; now apply str_in_In | reflexivity]] |].
  apply str_in_false in P, U, V.
  assert (Hl : ~ (In id (pipes (parser g)) \/ In id (pumps (parser g))
                  \/ In id (valves (parser g)))) by tauto.
  right. cbn [orb].
  destruct (str_in id (patterns (parser g))) eqn:A.
  - left. apply str_in_In in A. now repeat split.
  - right. apply str_in_false in A. now repeat split.
Qed.

Lemma split_spec (id prop : str) :
  ~ In chr_colon id -> ~ In chr_colon prop ->
  split chr_colon (id ++ chr_colon :: prop) = [id; prop].
Proof.
  intros Hi Hp. rewrite (split_app_sep _ _ _ Hi). now rewrite (split_no_sep _ _ Hp).
Qed.

Lemma split_not_two (s : str) :
  count_occ ascii_dec s chr_colon <> 1%nat ->
  (List.length (split chr_colon s) =? 2)%nat = false.
Proof.
  intros H. rewrite split_length. apply Nat.eqb_neq. lia.
Qed.

(** [add_input] in terms of what the specification string is. *)
Lemma add_input_malformed g spec :
  count_occ ascii_dec spec chr_colon <> 1%nat ->
  add_input g spec = (g, Rejected (InvalidSpecFormat spec)).
Proof.
  intros H. unfold add_input. fold chr_colon. now rewrite (split_not_two _ H).
Qed.

Lemma add_input_wellformed g (id prop : str) :
  ~ In chr_colon id -> ~ In chr_colon prop ->
  add_input g (id ++ chr_colon :: prop)
  = match _get_object_type g id with
    | None => (g, Rejected (UnknownElement id))
    | Some t =>
        if str_in prop (valid_input_properties t)
        then (append_input g (mkEntry (List.length (inputs g) + 1) id t prop), Added)
        else (g, Rejected (InvalidProperty prop t))
    end.
Proof.
  intros Hi Hp. unfold add_input. fold chr_colon. rewrite (split_spec _ _ Hi Hp).
  cbn [List.length Nat.eqb negb nth].
  destruct (_get_object_type g id) as [t |]; [| reflexivity].
  unfold _is_valid_input_property.
  now destruct (str_in prop (valid_input_properties t)).
Qed.

Lemma add_output_malformed g spec :
  count_occ ascii_dec spec chr_colon <> 1%nat ->
  add_output g spec = (g, Rejected (InvalidSpecFormat spec)).
Proof.
  intros H. unfold add_output. fold chr_colon. now rewrite (split_not_two _ H).
Qed.

Lemma add_output_wellformed g (id prop : str) :
  ~ In chr_colon id -> ~ In chr_colon prop ->
  add_output g (id ++ chr_colon :: prop)
  = match _get_object_type g id with
    | None => (g, Rejected (UnknownElement id))
    | Some t =>
        if str_in prop (valid_output_properties t)
        then (append_output g (mkEntry (List.length (outputs g)) id t prop), Added)
        else (g, Rejected (InvalidProperty prop t))
    end.
Proof.
  intros Hi Hp. unfold add_output. fold chr_colon. rewrite (split_spec _ _ Hi Hp).
  cbn [List.length Nat.eqb negb nth].
  destruct (_get_object_type g id) as [t |]; [| reflexivity].
  unfold _is_valid_output_property.
  now destruct (str_in prop (valid_output_properties t)).
Qed.

(** A call either leaves the generator as it is, or appends one entry that
    carries the next index. *)
Lemma add_input_outcome g spec :
  (exists e, add_input g spec = (g, Rejected e))
  \/ (exists e, index e = (List.length (inputs g) + 1)%nat
                /\ add_input g spec = (append_input g e, Added)).
Proof.
  unfold add_input.
  destruct (negb _); [left; eauto |].
  destruct (_get_object_type g _); [| left; eauto].
  destruct (negb _); [left; eauto |].
  right. eexists. split; [| reflexivity]. reflexivity.
Qed.

Lemma add_output_outcome g spec :
  (exists e, add_output g spec = (g, Rejected e))
  \/ (exists e, index e = List.length (outputs g)
                /\ add_output g spec = (append_output g e, Added)).
Proof.
  unfold add_output.
  destruct (negb _); [left; eauto |].
  destruct (_get_object_type g _); [| left; eauto].
  destruct (negb _); [left; eauto |].
  right. eexists. split; [| reflexivity]. reflexivity.
Qed.

Lemma number_from_app start (a b : list (str * object_type_t * str)) :
  number_from start (a ++ b)
  = number_from start a ++ number_from (start + List.length a) b.
Proof.
  revert start. induction a as [| [[id t] prop] a IH]; intros start; simpl.
  - now rewrite Nat.add_0_r.
  - rewrite IH. do 3 f_equal. lia.
Qed.

Lemma number_from_length start (l : list (str * object_type_t * str)) :
  List.length (number_from start l) = List.length l.
Proof.
  revert start. induction l as [| [[id t] prop] l IH]; intros start; simpl;
    [reflexivity | now rewrite IH].
Qed.

(** One loop of [generate_default_outputs] appends the numbered entries. *)
Lemma append_each_spec ids t prop g :
  append_each ids t prop g
  = mkGenerator (parser g) (inp_file g) (inputs g)
      (outputs g ++ number_from (List.length (outputs g)) (bindings t prop ids)).
Proof.
  unfold append_each. revert g.
  induction ids as [| id ids IH]; intros g; simpl.
  - rewrite app_nil_r. now destruct g.
  - rewrite IH. unfold append_output. simpl. f_equal.
    rewrite <- app_assoc. simpl. do 3 f_equal. rewrite length_app. simpl. lia.
Qed.

Lemma generate_default_outputs_spec g include_quality :
  generate_default_outputs g include_quality
  = mkGenerator (parser g) (inp_file g) (inputs g)
      (outputs g ++ number_from (List.length (outputs g))
                      (default_bindings (parser g) include_quality)).
Proof.
  unfold generate_default_outputs, default_bindings, get_all_links, get_all_nodes.
  destruct include_quality; rewrite !append_each_spec; cbn [parser inp_file inputs outputs];
    f_equal; rewrite !number_from_app, <- !app_assoc.
  all: rewrite ?length_app, ?number_from_length, ?Nat.add_assoc.
  all: cbn [number_from]; rewrite ?app_nil_r; reflexivity.
Qed.

(** ** Indices *)

Lemma indexed_from_nil start : indexed_from start [].
Proof. intros [| i] e H; discriminate. Qed.

Lemma indexed_from_cons start e l :
  index e = start -> indexed_from (S start) l -> indexed_from start (e :: l).
Proof.
  intros He Hl [| i] x H; simpl in H.
  - inversion H. subst. lia.
  - apply Hl in H. lia.
Qed.

Lemma indexed_from_app start l1 l2 :
  indexed_from start l1 -> indexed_from (start + List.length l1) l2 ->
  indexed_from start (l1 ++ l2).
Proof.
  intros H1 H2 i e H.
  destruct (Nat.lt_ge_cases i (List.length l1)) as [Hi | Hi].
  - rewrite nth_error_app1 in H by exact Hi. now apply H1.
  - rewrite nth_error_app2 in H by exact Hi. apply H2 in H. lia.
Qed.

Lemma indexed_from_number_from start bs : indexed_from start (number_from start bs).
Proof.
  revert start. induction bs as [| [[id t] prop] bs IH]; intros start; simpl.
  - apply indexed_from_nil.
  - apply indexed_from_cons; [reflexivity | apply IH].
Qed.

Lemma indexed_from_snoc start l e :
  indexed_from start l -> index e = (start + List.length l)%nat ->
  indexed_from start (l ++ [e]).
Proof.
  intros Hl He. apply indexed_from_app; [exact Hl |].
  apply indexed_from_cons; [exact He | apply indexed_from_nil].
Qed.

(** The invariant of the builder: user inputs are numbered from 1, outputs
    from 0. *)
Lemma reachable_indexed p f g :
  reachable p f g ->
  indexed_from 1 (inputs g) /\ indexed_from 0 (outputs g).
Proof.
  induction 1 as [| g spec _ [Hi Ho] | g spec _ [Hi Ho] | g q _ [Hi Ho]].
  - split; apply indexed_from_nil.
  - destruct (add_input_outcome g spec) as [[e E] | [e [He E]]]; rewrite E; simpl.
    + now split.
    + split; [| exact Ho]. apply indexed_from_snoc; [exact Hi | lia].
  - destruct (add_output_outcome g spec) as [[e E] | [e [He E]]]; rewrite E; simpl.
    + now split.
    + split; [exact Hi |]. apply indexed_from_snoc; [exact Ho | exact He].
  - rewrite generate_default_outputs_spec. simpl. split; [exact Hi |].
    apply indexed_from_app; [exact Ho | apply indexed_from_number_from].
Qed.

Lemma build_config_invariant g logging_level source :
  indexed_from 1 (inputs g) -> indexed_from 0 (outputs g) ->
  config_invariant (build_config g logging_level source).
Proof.
  intros Hi Ho. unfold config_invariant, build_config. simpl.
  repeat split; try assumption.
  apply indexed_from_cons; [reflexivity | exact Hi].
Qed.

(** ** Durations *)

Lemma parse_time_string_two (p0 p1 : str) :
  ~ In chr_colon p0 -> ~ In chr_colon p1 ->
  _parse_time_string (p0 ++ chr_colon :: p1)
  = (hours <- int p0 ;; minutes <- int p1 ;; ret (hours * 3600 + minutes * 60)).
Proof.
  intros H0 H1. unfold _parse_time_string. fold chr_colon.
  now rewrite (split_spec _ _ H0 H1).
Qed.

Lemma parse_time_string_three (p0 p1 p2 : str) :
  ~ In chr_colon p0 -> ~ In chr_colon p1 -> ~ In chr_colon p2 ->
  _parse_time_string (p0 ++ chr_colon :: p1 ++ chr_colon :: p2)
  = (hours <- int p0 ;; minutes <- int p1 ;; seconds <- int p2 ;;
     ret (hours * 3600 + minutes * 60 + seconds)).
Proof.
  intros H0 H1 H2. unfold _parse_time_string. fold chr_colon.
  rewrite (split_app_sep _ _ _ H0), (split_spec _ _ H1 H2). reflexivity.
Qed.

(** Any other number of parts gives the default. *)
Lemma parse_time_string_default (time_str : str) :
  count_occ ascii_dec time_str chr_colon <> 1%nat ->
  count_occ ascii_dec time_str chr_colon <> 2%nat ->
  _parse_time_string time_str = ret 3600.
Proof.
  intros H1 H2. unfold _parse_time_string. fold chr_colon. rewrite split_length.
  destruct (Nat.eqb_spec (S (count_occ ascii_dec time_str chr_colon)) 2); [lia |].
  destruct (Nat.eqb_spec (S (count_occ ascii_dec time_str chr_colon)) 3); [lia |].
  reflexivity.
Qed.

(** ** The file hash *)









(** ** The run *)

Lemma reachable_parser p f g : reachable p f g -> parser g = p /\ inp_file g = f.
Proof.
  induction 1 as [| g spec _ [Hp Hf] | g spec _ [Hp Hf] | g q _ [Hp Hf]].
  - now split.
  - destruct (add_input_outcome g spec) as [[e E] | [e [_ E]]]; rewrite E; now split.
  - destruct (add_output_outcome g spec) as [[e E] | [e [_ E]]]; rewrite E; now split.
  - rewrite generate_default_outputs_spec. now split.
Qed.

Lemma add_all_input_reachable p f specs g g' :
  reachable p f g -> add_all add_input specs g = Some g' -> reachable p f g'.
Proof.
  revert g. induction specs as [| spec specs IH]; intros g Hr H; cbn [add_all] in H.
  - inversion H. now subst.
  - destruct (add_input g spec) as [g1 r] eqn:E. destruct r; [| discriminate].
    apply (IH g1); [| exact H].
    replace g1 with (fst (add_input g spec)) by now rewrite E.
    now constructor.
Qed.

Lemma add_all_output_reachable p f specs g g' :
  reachable p f g -> add_all add_output specs g = Some g' -> reachable p f g'.
Proof.
  revert g. induction specs as [| spec specs IH]; intros g Hr H; cbn [add_all] in H.
  - inversion H. now subst.
  - destruct (add_output g spec) as [g1 r] eqn:E. destruct r; [| discriminate].
    apply (IH g1); [| exact H].
    replace g1 with (fst (add_output g spec)) by now rewrite E.
    now constructor.
Qed.

Lemma str_of_int_returns (n : Z) (s : str) :
  str_of_int n = inr s -> s = decimal_repr n.
Proof.
  unfold str_of_int.
  destruct (int_max_str_digits <? List.length (decimal_repr (Z.abs n)))%nat;
    intros H; inversion H. reflexivity.
Qed.

(** [generate_json] raises when the timestep cannot be formatted; otherwise
    it returns [True] with the configuration of the generator, or [False]
    when the file cannot be written. *)
Lemma generate_json_unfold g logging_level source writable :
  generate_json g logging_level source writable
  = match str_of_int (hydraulic_timestep (parser g)) with
    | inl e => inl e
    | inr _ =>
        inr (if writable then (true, Some (build_config g logging_level source))
             else (false, None))
    end.
Proof.
  unfold generate_json, build_config.
  destruct (str_of_int (hydraulic_timestep (parser g))) as [e | s] eqn:E;
    cbn [bind ret]; [reflexivity |].
  rewrite (str_of_int_returns _ _ E). now destruct writable.
Qed.

(** A run that writes a configuration has parsed a model and has built the
    configuration from a generator of that model. *)
Lemma main_writes (args : args_t) (env : env_t) code c :
  main args env = inr (code, Some c) ->
  code = 0
  /\ exists p g,
      parse EpanetInpParser_init (env_text env) = inr (true, p)
      /\ reachable p (args_inp_file args) g
      /\ c = build_config g (args_logging_level args) (env_binary env).
Proof.
  unfold main.
  destruct (parse EpanetInpParser_init (env_text env)) as [e | [ok p]] eqn:P;
    simpl; [discriminate |].
  destruct ok; cbn [negb]; [| discriminate].
  destruct (str_of_int (hydraulic_timestep p)) as [e | txt]; cbn [bind ret];
    [discriminate |].
  set (g0 := MappingGenerator_init p (args_inp_file args)).
  assert (R0 : reachable p (args_inp_file args) g0) by constructor.
  destruct (if truthy (args_inputs args) then _ else Some g0) as [g1 |] eqn:E1;
    [| discriminate].
  assert (R1 : reachable p (args_inp_file args) g1).
  { destruct (truthy (args_inputs args)).
    - exact (add_all_input_reachable _ _ _ _ _ R0 E1).
    - inversion E1. now subst. }
  destruct (if truthy (args_outputs args) then _ else Some _) as [g2 |] eqn:E2;
    [| discriminate].
  assert (R2 : reachable p (args_inp_file args) g2).
  { destruct (truthy (args_outputs args)).
    - exact (add_all_output_reachable _ _ _ _ _ R1 E2).
    - inversion E2. now constructor. }
  rewrite generate_json_unfold.
  destruct (str_of_int (hydraulic_timestep (parser g2))); cbn [bind ret];
    [discriminate |].
  destruct (env_writable env); [| discriminate].
  intros H. inversion H. split; [reflexivity |]. now exists p, g2.
Qed.

(** Every configuration a run writes satisfies the invariant. *)
Corollary main_config_invariant (args : args_t) (env : env_t) code c :
  main args env = inr (code, Some c) -> config_invariant c.
Proof.
  intros H. apply main_writes in H. destruct H as [_ [p [g [_ [R ->]]]]].
  apply reachable_indexed in R. destruct R as [Hi Ho].
  now apply build_config_invariant.
Qed.

Lemma add_all_input_frame specs g g' :
  add_all add_input specs g = Some g' ->
  outputs g' = outputs g /\ parser g' = parser g.
Proof.
  revert g. induction specs as [| spec specs IH]; intros g H; cbn [add_all] in H.
  - inversion H. now subst.
  - destruct (add_input_outcome g spec) as [[e E] | [e [_ E]]]; rewrite E in H.
    + discriminate.
    + apply IH in H. exact H.
Qed.

(** A run without explicit outputs writes the default outputs, numbered
    from 0. *)
Lemma main_default_outputs (args : args_t) (env : env_t) code c :
  main args env = inr (code, Some c) ->
  truthy (args_outputs args) = false ->
  exists p,
    parse EpanetInpParser_init (env_text env) = inr (true, p)
    /\ cfg_outputs c = number_from 0 (default_bindings p (args_quality args)).
Proof.
  unfold main.
  destruct (parse EpanetInpParser_init (env_text env)) as [e | [ok p]] eqn:P;
    simpl; [discriminate |].
  destruct ok; cbn [negb]; [| discriminate].
  destruct (str_of_int (hydraulic_timestep p)) as [e | txt]; cbn [bind ret];
    [discriminate |].
  set (g0 := MappingGenerator_init p (args_inp_file args)).
  destruct (if truthy (args_inputs args) then _ else Some g0) as [g1 |] eqn:E1;
    [| discriminate].
  assert (F1 : outputs g1 = [] /\ parser g1 = p).
  { destruct (truthy (args_inputs args)).
    - exact (add_all_input_frame _ _ _ E1).
    - inversion E1. now subst. }
  destruct F1 as [Fo Fp].
  intros H Ht. rewrite Ht in H.
  rewrite generate_json_unfold in H.
  destruct (str_of_int (hydraulic_timestep _)); cbn [bind ret] in H;
    [discriminate |].
  destruct (env_writable env); [| discriminate].
  inversion H. exists p. split; [reflexivity |].
  unfold build_config. cbn [cfg_outputs].
  rewrite generate_default_outputs_spec. cbn [outputs]. rewrite Fo, Fp. reflexivity.
Qed.

(** * The claims *)

(** C1 (the code departs from the claim).  The claim: [parse] succeeds on
    every text that could be read, and a Hydraulic Timestep whose third token
    is not a duration leaves the default of 3600 seconds in place.  The code
    keeps the default when the token does not have two or three parts, as for
    [abc]; on a token with two or three parts one of which is not an integer,
    [int] raises [ValueError], which neither [_parse_time_string] nor [parse]
    catches: [parse] does not return and the run ends there. *)
Theorem parse_raises_on_malformed_duration :
  _parse_time_string (lit "abc") = inr 3600
  /\ _parse_time_string (lit "1:xx") = inl ValueError
  /\ parse EpanetInpParser_init (Some malformed_duration_text) = inl ValueError
  /\ main sample_args (sample_env malformed_duration_text) = inl ValueError.
Proof. repeat split. Qed.

(** C2.  Every configuration built from a generator that was driven through
    its methods has, as input 0, the entry with index 0, name [ElapsedTime],
    type SYSTEM and property [ELAPSEDTIME]; counts that are the lengths of its
    two lists; and entries whose index is their position (the user inputs are
    numbered from 1 and follow the reserved entry).  So has every
    configuration that [generate_json] writes. *)
Theorem configuration_invariant p f g logging_level source :
  reachable p f g ->
  config_invariant (build_config g logging_level source)
  /\ nth_error (cfg_inputs (build_config g logging_level source)) 0
     = Some (mkEntry 0 (lit "ElapsedTime") SYSTEM (lit "ELAPSEDTIME"))
  /\ cfg_inputs (build_config g logging_level source)
     = mkEntry 0 (lit "ElapsedTime") SYSTEM (lit "ELAPSEDTIME") :: inputs g
  /\ indexed_from 1 (inputs g)
  /\ forall writable ok c,
      generate_json g logging_level source writable = inr (ok, Some c) ->
      config_invariant c.
Proof.
  intros R. apply reachable_indexed in R. destruct R as [Hi Ho].
  split; [now apply build_config_invariant |].
  split; [reflexivity |]. split; [reflexivity |]. split; [exact Hi |].
  intros writable ok c. rewrite generate_json_unfold.
  destruct (str_of_int (hydraulic_timestep (parser g))); [discriminate |].
  destruct writable; intros H; inversion H.
  now apply build_config_invariant.
Qed.

Lemma configuration_invariant_witness :
  reachable sample_parser (lit "net.inp")
    (generate_default_outputs
       (fst (add_input sample_generator (lit "TANK_1:DEMAND"))) true)
  /\ config_invariant
       (build_config
          (generate_default_outputs
             (fst (add_input sample_generator (lit "TANK_1:DEMAND"))) true)
          (lit "INFO") Unopenable).
Proof.
  split.
  - repeat constructor.
  - apply (configuration_invariant sample_parser (lit "net.inp")).
    repeat constructor.
Defined.

(** C3.  [generate_default_outputs] appends, numbered from the current
    number of outputs: a TANKLEVEL entry per tank, a PRESSURE entry per
    junction, a FLOW entry per pipe, pump and valve in that order and, when
    quality is asked for, a QUALITY entry per junction, reservoir and tank and
    then one per pipe, pump and valve.  On a generator without outputs these
    are all the outputs, numbered from 0, and they are the outputs that a run
    without explicit outputs writes.  Without quality their number is
    |tanks| + |junctions| + |pipes| + |pumps| + |valves|. *)
Theorem generate_default_outputs_order g include_quality p f ins :
  outputs (generate_default_outputs g include_quality)
  = outputs g ++ number_from (List.length (outputs g))
                   (default_bindings (parser g) include_quality)
  /\ inputs (generate_default_outputs g include_quality) = inputs g
  /\ outputs (generate_default_outputs (mkGenerator p f ins []) include_quality)
     = number_from 0 (default_bindings p include_quality)
  /\ List.length (number_from 0 (default_bindings p false))
     = (List.length (tanks p) + List.length (junctions p)
        + (List.length (pipes p) + List.length (pumps p) + List.length (valves p)))%nat
  /\ List.length (number_from 0 (default_bindings p true))
     = (List.length (tanks p) + List.length (junctions p)
        + (List.length (pipes p) + List.length (pumps p) + List.length (valves p))
        + (List.length (junctions p) + List.length (reservoirs p) + List.length (tanks p))
        + (List.length (pipes p) + List.length (pumps p) + List.length (valves p)))%nat
  /\ (forall args env code c,
        main args env = inr (code, Some c) ->
        truthy (args_outputs args) = false ->
        exists p',
          parse EpanetInpParser_init (env_text env) = inr (true, p')
          /\ cfg_outputs c = number_from 0 (default_bindings p' (args_quality args))).
Proof.
  rewrite !generate_default_outputs_spec. cbn [outputs inputs parser].
  repeat split.
  - rewrite number_from_length. unfold default_bindings, bindings.
    rewrite !length_app, !length_map, !length_app. simpl. lia.
  - rewrite number_from_length. unfold default_bindings, bindings.
    rewrite !length_app, !length_map, !length_app. lia.
  - intros args env code c. apply main_default_outputs.
Qed.

Lemma generate_default_outputs_order_witness :
  truthy (args_outputs sample_args) = false
  /\ exists c,
      main sample_args (sample_env sample_text) = inr (0, Some c)
      /\ cfg_outputs c
         = [mkEntry 0 (lit "T1") NODE (lit "TANKLEVEL");
            mkEntry 1 (lit "J1") NODE (lit "PRESSURE");
            mkEntry 2 (lit "J2") NODE (lit "PRESSURE");
            mkEntry 3 (lit "P1") LINK (lit "FLOW")].
Proof.
  split; [reflexivity |].
  eexists. split; [reflexivity |].
  destruct (proj2 (proj2 (proj2 (proj2 (proj2
              (generate_default_outputs_order sample_generator false
                 sample_parser [] [])))))
              sample_args (sample_env sample_text) 0 _ eq_refl eq_refl)
    as [p' [P E]].
  rewrite E. inversion P. reflexivity.
Defined.

(** C4.  [add_input] rejects a string that does not hold exactly one colon
    as badly formed.  On [id:property] it resolves [id] by membership: a
    junction, reservoir or tank is a NODE, else a pipe, pump or valve is a
    LINK, else a pattern is a PATTERN, and an identifier of no category is
    rejected as unknown.  A property outside the input table of the type is
    rejected; otherwise the generator comes back with one entry appended to
    its inputs, and nothing else changed: the entry carries the identifier,
    its type and the property, and its index is the number of inputs so far
    plus one. *)
Theorem add_input_contract (g : MappingGenerator) (spec : str) :
  (count_occ ascii_dec spec chr_colon <> 1%nat ->
   add_input g spec = (g, Rejected (InvalidSpecFormat spec)))
  /\ forall id prop,
      spec = id ++ chr_colon :: prop ->
      ~ In chr_colon id -> ~ In chr_colon prop ->
      (is_node (parser g) id -> _get_object_type g id = Some NODE)
      /\ (~ is_node (parser g) id -> is_link (parser g) id ->
          _get_object_type g id = Some LINK)
      /\ (~ is_node (parser g) id -> ~ is_link (parser g) id ->
          is_pattern (parser g) id -> _get_object_type g id = Some PATTERN)
      /\ (~ is_node (parser g) id -> ~ is_link (parser g) id ->
          ~ is_pattern (parser g) id ->
          add_input g spec = (g, Rejected (UnknownElement id)))
      /\ (forall t, _get_object_type g id = Some t ->
          ~ In prop (valid_input_properties t) ->
          add_input g spec = (g, Rejected (InvalidProperty prop t)))
      /\ (forall t, _get_object_type g id = Some t ->
          In prop (valid_input_properties t) ->
          add_input g spec
          = (mkGenerator (parser g) (inp_file g)
               (inputs g ++ [mkEntry (List.length (inputs g) + 1) id t prop])
               (outputs g),
             Added)).
Proof.
  split; [apply add_input_malformed |].
  intros id prop -> Hi Hp. rewrite (add_input_wellformed g id prop Hi Hp).
  destruct (get_object_type_cases g id)
    as [[N E] | [[N [L E]] | [[N [L [P E]]] | [N [L [P E]]]]]]; rewrite E;
    (split; [tauto |]); (split; [tauto |]); (split; [tauto |]);
    (split; [tauto |]).
  1-3: split; intros t Ht Hin; inversion Ht; subst t.
  1,3,5: apply str_in_false in Hin; now rewrite Hin.
  1-3: apply str_in_In in Hin; now rewrite Hin.
  split; intros t Ht; discriminate.
Qed.

Lemma add_input_contract_witness :
  In (lit "DEMAND") (valid_input_properties NODE)
  /\ add_input sample_generator (lit "TANK_1:DEMAND")
     = (mkGenerator sample_parser (lit "net.inp")
          [mkEntry 1 (lit "TANK_1") NODE (lit "DEMAND")] [],
        Added).
Proof.
  split; [now left |].
  refine (proj2 (proj2 (proj2 (proj2 (proj2
            (proj2 (add_input_contract sample_generator (lit "TANK_1:DEMAND"))
               (lit "TANK_1") (lit "DEMAND") eq_refl _ _))))) NODE eq_refl _).
  - intros H. simpl in H. intuition discriminate.
  - intros H. simpl in H. intuition discriminate.
  - now left.
Defined.

Lemma first_some_true_iff {A} (f : A -> option bool) (l : list A) :
  first_some f l = Some true
  <-> exists pre x post,
        l = pre ++ x :: post /\ Forall (fun y => f y = None) pre /\ f x = Some true.
Proof.
  induction l as [| a l IH]; simpl.
  - split; [discriminate |]. intros [pre [x [post [E _]]]]. now destruct pre.
  - destruct (f a) as [v |] eqn:Fa.
    + split.
      * intros H. inversion H. subst v. exists [], a, l. now repeat split.
      * intros [pre [x [post [E [Hpre Hx]]]]]. destruct pre as [| b pre].
        -- inversion E. subst. congruence.
        -- inversion E. subst. inversion Hpre. congruence.
    + rewrite IH. split.
      * intros [pre [x [post [E [Hpre Hx]]]]]. exists (a :: pre), x, post.
        subst. repeat split; [now constructor | exact Hx].
      * intros [pre [x [post [E [Hpre Hx]]]]]. destruct pre as [| b pre].
        -- inversion E. subst. congruence.
        -- inversion E. subst. inversion Hpre. now exists pre, x, post.
Qed.

(** C5, as stated, fails: the OPTIONS section of this text has one line,
    whose first token [QualityX] is not the keyword [Quality] in any case of
    its letters, and the parsed model has quality enabled. *)
Lemma quality_longer_keyword_counterexample :
  exists p,
    parse EpanetInpParser_init (Some longer_keyword_text) = inr (true, p)
    /\ quality_enabled p = true
    /\ section_lines (lit "[OPTIONS]") longer_keyword_text = [lit "QualityX   CHEMICAL"]
    /\ split_ws (lit "QualityX   CHEMICAL") = [lit "QualityX"; lit "CHEMICAL"]
    /\ is_Quality (lit "QualityX") = false
    /\ ~ (quality_enabled p = true
          <-> exists line t1 t2 rest,
                In line (section_lines (lit "[OPTIONS]") longer_keyword_text)
                /\ split_ws line = t1 :: t2 :: rest
                /\ is_Quality t1 = true
                /\ codes_eqb (upper t2) (codes (lit "NONE")) = false).
Proof.
  eexists. split; [reflexivity |]. repeat split.
  intros [H _]. destruct (H eq_refl) as [line [t1 [t2 [rest [Hin [Hs [Hq _]]]]]]].
  destruct Hin as [<- | []]. inversion Hs. subst t1. discriminate.
Qed.

(** C5, amended.  Quality is enabled exactly when the OPTIONS section has a
    line whose first token begins with [Quality], whatever the case of its
    letters, that has a second token, and the second token of the first such
    line, in upper case, is not [NONE].  Without an OPTIONS section or such a
    line, quality stays as it was: disabled for a fresh parser. *)
Theorem quality_enabled_first_line (content : str) :
  (forall self,
     quality_enabled (_parse_quality_section self content)
     = match first_some (quality_line begins_with_Quality)
               (section_lines (lit "[OPTIONS]") content) with
       | Some v => v
       | None => quality_enabled self
       end)
  /\ (forall ok p,
        parse EpanetInpParser_init (Some content) = inr (ok, p) ->
        quality_enabled p = quality_of_options begins_with_Quality content
        /\ (quality_enabled p = true
            <-> exists pre line post,
                  section_lines (lit "[OPTIONS]") content = pre ++ line :: post
                  /\ Forall (fun l => quality_line begins_with_Quality l = None) pre
                  /\ quality_line begins_with_Quality line = Some true)).
Proof.
  split; [intros self; apply parse_quality_section_spec |].
  intros ok p H. apply parse_returns in H. destruct H as [_ [p1 [H1 ->]]].
  apply parse_times_frame in H1. destruct H1 as [_ Hq]. simpl in Hq.
  assert (E : quality_enabled (_parse_quality_section p1 content)
              = quality_of_options begins_with_Quality content).
  { rewrite parse_quality_section_spec, Hq. reflexivity. }
  split; [exact E |].
  rewrite E. unfold quality_of_options. rewrite <- first_some_true_iff.
  destruct (first_some _ _) as [[] |]; split; congruence.
Qed.

Lemma quality_enabled_first_line_witness :
  parse EpanetInpParser_init (Some sample_text)
  = inr (true,
         mkParser [lit "J1"; lit "J2"] [] [lit "T1"] [lit "P1"] [] [] [lit "J1"]
                  300 false)
  /\ false = quality_of_options begins_with_Quality sample_text.
Proof.
  split; [reflexivity |].
  exact (proj1 (proj2 (quality_enabled_first_line sample_text) true _ eq_refl)).
Defined.

(** C6.  For a section header and the list it fills: when the header does
    not occur in the text, whatever the case of its letters, the list is left as
    it is (empty, for a fresh parser); when it occurs, the section has a body,
    which runs from the end of the first occurrence to the next line that
    begins with a bracket or to the end of the text, and the list receives, in
    the order of the text, the first token of each line of the body that is
    not empty once its comment is removed and it is trimmed.  Each of the six
    element lists of a parsed model is filled so from its own section. *)
Theorem parse_section_extracts_first_tokens (content header : str) :
  (forall out,
     ((forall j, ~ occurs_at true header content j) ->
      _parse_section content header out = out)
     /\ (forall body,
           is_section_body header content body ->
           _parse_section content header out = out ++ ids_of_body body))
  /\ ((exists j, occurs_at true header content j) ->
      exists body, is_section_body header content body)
  /\ (forall ok p category,
        parse EpanetInpParser_init (Some content) = inr (ok, p) ->
        In (header, category) element_sections ->
        category p = _parse_section content header []).
Proof.
  split; [| split].
  - intros out. split.
    + intros H. apply parse_section_absent. now apply section_content_absent.
    + intros body H. apply parse_section_present. now apply section_content_body.
  - intros [j Hj]. destruct (section_content header content) as [body |] eqn:E.
    + exists body. now apply section_content_is_body.
    + exfalso. exact (section_content_none _ _ E j Hj).
  - intros ok p category H Hin. apply parse_lists in H.
    destruct H as [A1 [A2 [A3 [A4 [A5 [A6 A7]]]]]].
    unfold element_sections in Hin. simpl in Hin.
    repeat (destruct Hin as [Hin | Hin]; [inversion Hin; subst; assumption |]).
    contradiction.
Qed.

Lemma parse_section_extracts_first_tokens_witness :
  is_section_body (lit "[JUNCTIONS]") sample_text sample_junctions_body
  /\ ids_of_body sample_junctions_body = [lit "J1"; lit "J2"]
  /\ _parse_section sample_text (lit "[JUNCTIONS]") []
     = [] ++ ids_of_body sample_junctions_body.
Proof.
  assert (B : is_section_body (lit "[JUNCTIONS]") sample_text sample_junctions_body)
    by (apply section_content_is_body; reflexivity).
  split; [exact B |]. split; [reflexivity |].
  exact (proj2 (proj1 (parse_section_extracts_first_tokens sample_text (lit "[JUNCTIONS]")) [])
           sample_junctions_body B).
Defined.


(** The digest of the three bytes [abc], as in RFC 1321. *)
Example calculate_file_hash_abc :
  _calculate_file_hash (Opened (list_byte_of_string "abc") None)
  = lit "900150983cd24fb0d6963f7d28e17f72".
Proof. vm_compute. reflexivity. Qed.

(** C8.  An identifier that is in a node list is a NODE, also when it is a
    link or a pattern as well; one that is in no node list and in a link list
    is a LINK, also when it is a pattern as well; PATTERN is the answer only
    for a pattern that is neither a node nor a link. *)
Theorem get_object_type_tie_break (g : MappingGenerator) (id : str) :
  (is_node (parser g) id -> _get_object_type g id = Some NODE)
  /\ (~ is_node (parser g) id -> is_link (parser g) id ->
      _get_object_type g id = Some LINK)
  /\ (_get_object_type g id = Some PATTERN
      <-> is_pattern (parser g) id /\ ~ is_node (parser g) id
          /\ ~ is_link (parser g) id).
Proof.
  destruct (get_object_type_cases g id)
    as [[N E] | [[N [L E]] | [[N [L [P E]]] | [N [L [P E]]]]]]; rewrite E;
    (split; [tauto |]); (split; [tauto |]); split; try tauto; discriminate.
Qed.

Lemma get_object_type_tie_break_witness :
  is_node sample_parser (lit "J1")
  /\ is_link sample_parser (lit "J1")
  /\ is_pattern sample_parser (lit "J1")
  /\ _get_object_type sample_generator (lit "J1") = Some NODE.
Proof.
  assert (N : is_node sample_parser (lit "J1")) by (left; now left).
  split; [exact N |].
  split; [left; right; now left |].
  split; [now left |].
  exact (proj1 (get_object_type_tie_break sample_generator (lit "J1")) N).
Defined.

(** C9.  A call of [add_input] or [add_output] that returns [False] leaves
    the generator, and so both lists, as they were; a call that returns [True]
    has appended one entry to its own list and left the other list alone. *)
Theorem add_atomic_on_failure (g : MappingGenerator) (spec : str) :
  (returns_true (snd (add_input g spec)) = false -> fst (add_input g spec) = g)
  /\ (returns_true (snd (add_output g spec)) = false -> fst (add_output g spec) = g)
  /\ (returns_true (snd (add_input g spec)) = true ->
      exists e, inputs (fst (add_input g spec)) = inputs g ++ [e]
                /\ outputs (fst (add_input g spec)) = outputs g)
  /\ (returns_true (snd (add_output g spec)) = true ->
      exists e, outputs (fst (add_output g spec)) = outputs g ++ [e]
                /\ inputs (fst (add_output g spec)) = inputs g).
Proof.
  destruct (add_input_outcome g spec) as [[e E] | [e [_ E]]];
    destruct (add_output_outcome g spec) as [[e' E'] | [e' [_ E']]];
    rewrite E, E'; simpl; repeat split; try discriminate; eauto.
Qed.

Lemma add_atomic_on_failure_witness :
  returns_true (snd (add_output sample_generator (lit "J2:VOLTAGE"))) = false
  /\ fst (add_output sample_generator (lit "J2:VOLTAGE")) = sample_generator.
Proof.
  split; [reflexivity |].
  exact (proj1 (proj2 (add_atomic_on_failure sample_generator (lit "J2:VOLTAGE")))
           eq_refl).
Defined.

(** C10.  A duration of two or three colon-separated parts that [int]
    accepts is [h * 3600 + m * 60 (+ s)] for the integers the parts denote,
    whatever their sign or size: [-1:00] gives -3600 and [0:00] gives 0.  The
    configuration carries the hydraulic timestep of the parsed model
    unchanged, so a run on a model with such a duration writes it. *)
Theorem duration_no_range_check :
  (forall p0 p1 h m,
     ~ In chr_colon p0 -> ~ In chr_colon p1 ->
     int p0 = inr h -> int p1 = inr m ->
     _parse_time_string (p0 ++ chr_colon :: p1) = inr (h * 3600 + m * 60))
  /\ (forall p0 p1 p2 h m s,
        ~ In chr_colon p0 -> ~ In chr_colon p1 -> ~ In chr_colon p2 ->
        int p0 = inr h -> int p1 = inr m -> int p2 = inr s ->
        _parse_time_string (p0 ++ chr_colon :: p1 ++ chr_colon :: p2)
        = inr (h * 3600 + m * 60 + s))
  /\ _parse_time_string (lit "-1:00") = inr (-3600)
  /\ _parse_time_string (lit "0:00") = inr 0
  /\ (forall g logging_level source,
        cfg_hydraulic_timestep (build_config g logging_level source)
        = hydraulic_timestep (parser g))
  /\ (forall args env code c,
        main args env = inr (code, Some c) ->
        exists p,
          parse EpanetInpParser_init (env_text env) = inr (true, p)
          /\ cfg_hydraulic_timestep c = hydraulic_timestep p)
  /\ (exists c,
        main sample_args (sample_env negative_duration_text) = inr (0, Some c)
        /\ cfg_hydraulic_timestep c = -3600).
Proof.
  split; [| split; [| split; [| split; [| split; [| split]]]]].
  - intros p0 p1 h m H0 H1 E0 E1.
    rewrite (parse_time_string_two _ _ H0 H1), E0, E1. reflexivity.
  - intros p0 p1 p2 h m s H0 H1 H2 E0 E1 E2.
    rewrite (parse_time_string_three _ _ _ H0 H1 H2), E0, E1, E2. reflexivity.
  - reflexivity.
  - reflexivity.
  - reflexivity.
  - intros args env code c H. apply main_writes in H.
    destruct H as [_ [p [g [P [R ->]]]]]. exists p. split; [exact P |].
    apply reachable_parser in R. destruct R as [<- _]. reflexivity.
  - eexists. split; reflexivity.
Qed.

Lemma duration_no_range_check_witness :
  ~ In chr_colon (lit "-12") /\ ~ In chr_colon (lit "+7")
  /\ int (lit "-12") = inr (-12) /\ int (lit "+7") = inr 7
  /\ _parse_time_string (lit "-12:+7") = inr (-12 * 3600 + 7 * 60).
Proof.
  assert (H0 : ~ In chr_colon (lit "-12")) by (simpl; intuition discriminate).
  assert (H1 : ~ In chr_colon (lit "+7")) by (simpl; intuition discriminate).
  split; [exact H0 |]. split; [exact H1 |].
  split; [reflexivity |]. split; [reflexivity |].
  exact (proj1 duration_no_range_check (lit "-12") (lit "+7") (-12) 7
           H0 H1 eq_refl eq_refl).
Defined.

(** * Further properties *)

(** ** Tokens *)

Lemma take_drop_while (f : ascii -> bool) (s : str) :
  s = take_while f s ++ drop_while f s.
Proof.
  induction s as [| c r IH]; [reflexivity |]. simpl.
  destruct (f c); [simpl; now f_equal | reflexivity].
Qed.

Lemma take_while_all (f : ascii -> bool) (s : str) :
  forallb f (take_while f s) = true.
Proof.
  induction s as [| c r IH]; [reflexivity |]. simpl.
  destruct (f c) eqn:E; [simpl; now rewrite E | reflexivity].
Qed.

Lemma take_while_In (f : ascii -> bool) (s : str) c :
  In c (take_while f s) -> f c = true /\ In c s.
Proof.
  induction s as [| d r IH]; simpl; [contradiction |].
  destruct (f d) eqn:E; [| contradiction].
  intros [-> | H]; [split; [exact E | now left] |].
  destruct (IH H). split; [assumption | now right].
Qed.

Lemma drop_while_head (f : ascii -> bool) (s : str) c r :
  drop_while f s = c :: r -> f c = false.
Proof.
  induction s as [| d s IH]; simpl; [discriminate |].
  destruct (f d) eqn:E; [exact IH |].
  intros H. inversion H. now subst.
Qed.

Lemma split_ws_lstrip (s : str) : split_ws s = split_ws (lstrip s).
Proof.
  unfold split_ws. induction s as [| c r IH]; [reflexivity |].
  simpl. destruct (isspace c) eqn:E; [exact IH |].
  simpl. now rewrite E.
Qed.

(** The tokens of a line: none when it is blank; otherwise the first run of
    characters that are not whitespace, then the tokens of the rest. *)
Lemma split_ws_unfold (s : str) :
  split_ws s
  = match lstrip s with
    | [] => []
    | c :: r => take_while not_space (c :: r)
                  :: split_ws (drop_while not_space (c :: r))
    end.
Proof.
  rewrite split_ws_lstrip.
  destruct (lstrip s) as [| c r] eqn:E; [reflexivity |].
  assert (Hc : isspace c = false) by exact (lstrip_head _ _ _ E).
  rewrite (split_ws_head c r Hc). unfold first_token.
  rewrite (lstrip_fixed (c :: r) c r eq_refl Hc).
  unfold not_space. simpl. now rewrite Hc.
Qed.

(** A literal whose letters match no whitespace, matched against a run
    without whitespace followed by whitespace or nothing, consumes part of the
    run only. *)
Lemma match_literal_run (pat t rest : str) :
  (forall c, forallb (fun p => implb (chr_match true p c) (negb (isspace c))) pat = true) ->
  (forall c r, rest = c :: r -> isspace c = true) ->
  match_literal true pat (t ++ rest)
  = match match_literal true pat t with
    | Some t' => Some (t' ++ rest)
    | None => None
    end.
Proof.
  intros Hp Hrest. revert t.
  induction pat as [| p pat IH]; intros t; [reflexivity |].
  assert (Hp' : forall c, forallb (fun p => implb (chr_match true p c) (negb (isspace c))) pat = true).
  { intros c. specialize (Hp c). cbn [forallb] in Hp. now apply andb_true_iff in Hp. }
  destruct t as [| c t]; cbn [app match_literal].
  - destruct rest as [| c r]; [reflexivity |].
    specialize (Hp c). cbn [forallb] in Hp. apply andb_true_iff in Hp.
    destruct Hp as [Hp _]. rewrite (Hrest c r eq_refl) in Hp.
    destruct (chr_match true p c); [discriminate | reflexivity].
  - destruct (chr_match true p c); [now apply IH | reflexivity].
Qed.

Lemma match_literal_rest_suffix ic (pat s r : str) :
  match_literal ic pat s = Some r ->
  List.length s = (List.length pat + List.length r)%nat.
Proof.
  intros H. destruct (match_literal_sound _ _ _ _ H) as [m [-> Hm]].
  rewrite length_app, (matches_literal_length _ _ _ Hm). reflexivity.
Qed.

Lemma eq_ignorecase_matches (t pat : str) :
  eq_ignorecase t pat = true <-> matches_literal true pat t.
Proof.
  unfold eq_ignorecase. rewrite str_eqb_eq. unfold matches_literal.
  revert pat. induction t as [| c t IH]; intros [| p pat]; simpl.
  - split; [constructor | reflexivity].
  - split; [discriminate | intros H; inversion H].
  - split; [discriminate | intros H; inversion H].
  - split.
    + intros H. inversion H. constructor.
      * unfold chr_match. now apply Ascii.eqb_eq.
      * now apply IH.
    + intros H. inversion H; subst. f_equal.
      * unfold chr_match in *. now apply Ascii.eqb_eq.
      * now apply IH.
Qed.

Lemma eq_ignorecase_match_literal (t pat : str) :
  eq_ignorecase t pat = true <-> match_literal true pat t = Some [].
Proof.
  rewrite eq_ignorecase_matches. split.
  - intros H. rewrite <- (app_nil_r t). now apply match_literal_complete.
  - intros H. destruct (match_literal_sound _ _ _ _ H) as [m [E Hm]].
    rewrite app_nil_r in E. now subst.
Qed.

(** ** The hydraulic timestep *)

Lemma Hydraulic_letters_not_space (c : ascii) :
  forallb (fun p => implb (chr_match true p c) (negb (isspace c))) (lit "Hydraulic") = true.
Proof. destruct c as [[] [] [] [] [] [] [] []]; reflexivity. Qed.

Lemma Timestep_letters_not_space (c : ascii) :
  forallb (fun p => implb (chr_match true p c) (negb (isspace c))) (lit "Timestep") = true.
Proof. destruct c as [[] [] [] [] [] [] [] []]; reflexivity. Qed.

(** On a line that does not begin with whitespace, the pattern
    [Hydraulic\s+Timestep] matches exactly when the first token is
    [Hydraulic] and the second begins with [Timestep], up to case. *)
Lemma hydraulic_timestep_on_tokens (c : ascii) (r : str) :
  isspace c = false ->
  re_match_hydraulic_timestep (c :: r)
  = match split_ws (c :: r) with
    | t1 :: t2 :: _ =>
        eq_ignorecase t1 (lit "Hydraulic") && re_match_literal (lit "Timestep") t2
    | _ => false
    end.
Proof.
  intros Hc.
  rewrite (split_ws_unfold (c :: r)), (lstrip_fixed (c :: r) c r eq_refl Hc).
  replace (re_match_hydraulic_timestep (c :: r))
    with (re_match_hydraulic_timestep
            (take_while not_space (c :: r) ++ drop_while not_space (c :: r)))
    by now rewrite <- take_drop_while.
  set (t1 := take_while not_space (c :: r)).
  set (l' := drop_while not_space (c :: r)).
  assert (Hrest : forall d r', l' = d :: r' -> isspace d = true).
  { intros d r' E. apply drop_while_head in E. unfold not_space in E.
    now destruct (isspace d). }
  assert (Ht1 : forallb not_space t1 = true) by apply take_while_all.
  unfold re_match_hydraulic_timestep.
  rewrite (match_literal_run _ _ _ Hydraulic_letters_not_space Hrest).
  destruct (match_literal true (lit "Hydraulic") t1) as [t' |] eqn:M.
  - destruct t' as [| c' t''].
    + assert (E1 : eq_ignorecase t1 (lit "Hydraulic") = true)
        by now apply eq_ignorecase_match_literal.
      rewrite E1. cbn [app andb].
      rewrite (split_ws_unfold l').
      destruct l' as [| d r']; [reflexivity |].
      rewrite (Hrest d r' eq_refl). cbn [andb lstrip].
      rewrite (Hrest d r' eq_refl).
      destruct (lstrip r') as [| d2 r2] eqn:E2; [reflexivity |].
      apply (match_literal_first_run _ _ Timestep_letters_not_space).
    + assert (Hc' : isspace c' = false).
      { destruct (match_literal_sound _ _ _ _ M) as [m [E _]].
        rewrite forallb_forall in Ht1.
        assert (Hin : In c' t1) by (rewrite E; apply in_or_app; right; now left).
        apply Ht1 in Hin. unfold not_space in Hin. now destruct (isspace c'). }
      cbn [app]. rewrite Hc'. cbn [andb].
      assert (E1 : eq_ignorecase t1 (lit "Hydraulic") = false).
      { destruct (eq_ignorecase t1 (lit "Hydraulic")) eqn:E; [| reflexivity].
        apply eq_ignorecase_match_literal in E. congruence. }
      rewrite E1. now destruct (split_ws l').
  - assert (E1 : eq_ignorecase t1 (lit "Hydraulic") = false).
    { destruct (eq_ignorecase t1 (lit "Hydraulic")) eqn:E; [| reflexivity].
      apply eq_ignorecase_match_literal in E. congruence. }
    rewrite E1. now destruct (split_ws l').
Qed.

(** The loop of [_parse_times_section] stops at the first line that says
    something about the timestep, and parses what it says. *)
Lemma times_loop_spec (lines : list str) (self : EpanetInpParser) :
  times_loop lines self
  = match first_some timestep_line
            (filter (fun l => negb (is_empty l))
                    (map (fun l => strip (before_semicolon l)) lines)) with
    | Some time_str =>
        v <- _parse_time_string time_str ;; ret (set_hydraulic_timestep self v)
    | None => ret self
    end.
Proof.
  induction lines as [| line lines IH]; cbn [times_loop]; [reflexivity |].
  rewrite clean_line_eq. cbn [map filter].
  destruct (strip (before_semicolon line)) as [| c r] eqn:E; cbn [is_empty negb];
    [exact IH |].
  assert (Hc : isspace c = false) by exact (strip_head _ _ _ E).
  cbn [first_some]. unfold timestep_line at 1.
  rewrite (hydraulic_timestep_on_tokens c r Hc).
  destruct (split_ws (c :: r)) as [| t1 [| t2 [| t3 rest]]]; try exact IH.
  - destruct (eq_ignorecase t1 (lit "Hydraulic") && re_match_literal (lit "Timestep") t2);
      exact IH.
  - destruct (eq_ignorecase t1 (lit "Hydraulic") && re_match_literal (lit "Timestep") t2);
      [reflexivity | exact IH].
Qed.

Lemma parse_times_section_spec (self : EpanetInpParser) (content : str) :
  _parse_times_section self content
  = match first_some timestep_line (section_lines (lit "[TIMES]") content) with
    | Some time_str =>
        v <- _parse_time_string time_str ;; ret (set_hydraulic_timestep self v)
    | None => ret self
    end.
Proof.
  unfold _parse_times_section, section_lines.
  destruct (section_content (lit "[TIMES]") content) as [body |]; [| reflexivity].
  apply times_loop_spec.
Qed.

(** X1.  [_parse_times_section] takes the timestep from the first line of
    the TIMES section whose first token is [Hydraulic], whose second token
    begins with [Timestep] (both up to case) and which has a third token: the
    third token is parsed as a duration.  Lines before it, and matching lines
    with only two tokens, are passed over; without a TIMES section or such a
    line the parser is returned as it is. *)
Theorem hydraulic_timestep_first_line (self : EpanetInpParser) (content : str) :
  _parse_times_section self content
  = match first_some timestep_line (section_lines (lit "[TIMES]") content) with
    | Some time_str =>
        v <- _parse_time_string time_str ;; ret (set_hydraulic_timestep self v)
    | None => ret self
    end.
Proof. apply parse_times_section_spec. Qed.

(** X2.  What [parse] does with a text that was read is decided by that
    line: without it [parse] returns [True] and the timestep is 3600; with it,
    [parse] raises when the duration raises, and otherwise returns [True] with
    the timestep the duration gives.  Nothing else in the text makes [parse]
    fail. *)
Theorem parse_outcome (content : str) :
  match first_some timestep_line (section_lines (lit "[TIMES]") content) with
  | None =>
      exists p, parse EpanetInpParser_init (Some content) = inr (true, p)
                /\ hydraulic_timestep p = 3600
  | Some time_str =>
      match _parse_time_string time_str with
      | inl e => parse EpanetInpParser_init (Some content) = inl e
      | inr v =>
          exists p, parse EpanetInpParser_init (Some content) = inr (true, p)
                    /\ hydraulic_timestep p = v
      end
  end.
Proof.
  unfold parse. rewrite parse_times_section_spec.
  destruct (first_some timestep_line (section_lines (lit "[TIMES]") content))
    as [time_str |].
  - destruct (_parse_time_string time_str) as [e | v]; cbn [bind ret]; [reflexivity |].
    eexists. split; [reflexivity |].
    now rewrite (proj2 (parse_quality_frame _ content)).
  - cbn [bind ret]. eexists. split; [reflexivity |].
    now rewrite (proj2 (parse_quality_frame _ content)).
Qed.

(** X3.  [_parse_time_string] raises exactly when the string has two or
    three colon-separated parts and [int] rejects one of them; in every other
    case it returns. *)
Theorem parse_time_string_raises_iff (time_str : str) :
  _parse_time_string time_str = inl ValueError
  <-> (List.length (split chr_colon time_str) = 2%nat
       \/ List.length (split chr_colon time_str) = 3%nat)
      /\ exists part, In part (split chr_colon time_str) /\ int part = inl ValueError.
Proof.
  unfold _parse_time_string. fold chr_colon.
  destruct (split chr_colon time_str) as [| a [| b [| c [| d l]]]];
    cbn [List.length Nat.eqb nth].
  - split; [discriminate | intros [[H | H] _]; discriminate].
  - split; [discriminate | intros [[H | H] _]; discriminate].
  - destruct (int a) as [[] | h] eqn:Ea; cbn [bind ret].
    + split; [| reflexivity]. intros _. split; [now left |].
      exists a. split; [now left | exact Ea].
    + destruct (int b) as [[] | m] eqn:Eb; cbn [bind ret].
      * split; [| reflexivity]. intros _. split; [now left |].
        exists b. split; [right; now left | exact Eb].
      * split; [discriminate |].
        intros [_ [part [[<- | [<- | []]] E]]]; congruence.
  - destruct (int a) as [[] | h] eqn:Ea; cbn [bind ret].
    + split; [| reflexivity]. intros _. split; [now right |].
      exists a. split; [now left | exact Ea].
    + destruct (int b) as [[] | m] eqn:Eb; cbn [bind ret].
      * split; [| reflexivity]. intros _. split; [now right |].
        exists b. split; [right; now left | exact Eb].
      * destruct (int c) as [[] | s] eqn:Ec; cbn [bind ret].
        -- split; [| reflexivity]. intros _. split; [now right |].
           exists c. split; [right; right; now left | exact Ec].
        -- split; [discriminate |].
           intros [_ [part [[<- | [<- | [<- | []]]] E]]]; congruence.
  - split; [discriminate | intros [[H | H] _]; discriminate].
Qed.

(** ** Decimal durations *)

Lemma digit_is_plain (c : ascii) :
  implb (isdigit c)
    (negb (int_isspace c) && negb (Ascii.eqb c "-"%char)
     && negb (Ascii.eqb c "+"%char) && negb (Ascii.eqb c chr_underscore)
     && negb (Ascii.eqb c chr_colon) && (0 <=? digit_value c)) = true.
Proof. destruct c as [[] [] [] [] [] [] [] []]; reflexivity. Qed.

Lemma digit_facts (c : ascii) :
  isdigit c = true ->
  int_isspace c = false /\ Ascii.eqb c "-"%char = false
  /\ Ascii.eqb c "+"%char = false /\ Ascii.eqb c chr_underscore = false
  /\ c <> chr_colon /\ 0 <= digit_value c.
Proof.
  intros H. pose proof (digit_is_plain c) as P. rewrite H in P. cbn [implb] in P.
  repeat (apply andb_true_iff in P; destruct P as [P ?]).
  repeat match goal with H : negb _ = true |- _ => apply negb_true_iff in H end.
  repeat split; try assumption.
  - now apply Ascii.eqb_neq.
  - now apply Z.leb_le.
Qed.

Lemma scan_digits_decimal (s : str) (acc : Z) :
  forallb isdigit s = true ->
  scan_digits s false acc
  = Some (fold_left (fun a c => a * 10 + digit_value c) s acc).
Proof.
  revert acc. induction s as [| c s IH]; intros acc H; [reflexivity |].
  cbn [forallb] in H. apply andb_true_iff in H. destruct H as [Hc Hs].
  cbn [scan_digits fold_left]. rewrite Hc. now apply IH.
Qed.

Lemma fold_digits_nonneg (s : str) (acc : Z) :
  forallb isdigit s = true -> 0 <= acc ->
  0 <= fold_left (fun a c => a * 10 + digit_value c) s acc.
Proof.
  revert acc. induction s as [| c s IH]; intros acc H Ha; [exact Ha |].
  cbn [forallb] in H. apply andb_true_iff in H. destruct H as [Hc Hs].
  cbn [fold_left]. apply IH; [exact Hs |].
  destruct (digit_facts c Hc) as [_ [_ [_ [_ [_ Hd]]]]]. lia.
Qed.

Lemma int_lstrip_digit (s : str) c r :
  s = c :: r -> isdigit c = true -> int_lstrip s = s.
Proof.
  intros -> H. destruct (digit_facts c H) as [Hs _]. simpl. now rewrite Hs.
Qed.

Lemma count_digits_all (s : str) :
  forallb isdigit s = true -> count_digits s = List.length s.
Proof.
  unfold count_digits. induction s as [| c s IH]; [reflexivity |].
  cbn [forallb filter]. intros H. apply andb_true_iff in H. destruct H as [Hc Hs].
  rewrite Hc. simpl. now rewrite IH.
Qed.

(** [int] accepts a string of decimal digits and gives the number it
    denotes. *)
Lemma int_decimal (s : str) : is_decimal s -> int s = inr (decimal_value s).
Proof.
  intros [Hne [Hd Hl]]. unfold int.
  destruct s as [| c r]; [contradiction |].
  assert (Hc : isdigit c = true)
    by (cbn [forallb] in Hd; now apply andb_true_iff in Hd).
  rewrite (int_lstrip_digit (c :: r) c r eq_refl Hc).
  assert (Hrev : int_lstrip (rev (c :: r)) = rev (c :: r)).
  { destruct (rev (c :: r)) as [| d t] eqn:E; [reflexivity |].
    apply (int_lstrip_digit _ d t eq_refl).
    rewrite forallb_forall in Hd. apply Hd. apply in_rev. rewrite E. now left. }
  rewrite Hrev, rev_involutive.
  destruct (digit_facts c Hc) as [_ [Hm [Hp [Hu _]]]].
  rewrite Hm, Hp. unfold int_unsigned. rewrite Hu.
  rewrite (count_digits_all _ Hd).
  destruct (Nat.ltb_spec int_max_str_digits (List.length (c :: r))); [lia |].
  rewrite (scan_digits_decimal _ 0 Hd). reflexivity.
Qed.

Lemma decimal_no_colon (s : str) : forallb isdigit s = true -> ~ In chr_colon s.
Proof.
  intros Hd Hin. rewrite forallb_forall in Hd. apply Hd in Hin.
  destruct (digit_facts _ Hin) as [_ [_ [_ [_ [Hc _]]]]]. now apply Hc.
Qed.

Lemma decimal_value_nonneg (s : str) : forallb isdigit s = true -> 0 <= decimal_value s.
Proof. intros H. apply fold_digits_nonneg; [exact H | lia]. Qed.

(** X4.  A duration written with decimal digits only, [H:MM] or [H:MM:SS],
    never raises: it gives the number of seconds that the digits denote, which
    is not negative. *)
Theorem decimal_duration_parses (h m : str) :
  is_decimal h -> is_decimal m ->
  _parse_time_string (h ++ chr_colon :: m)
  = inr (decimal_value h * 3600 + decimal_value m * 60)
  /\ 0 <= decimal_value h * 3600 + decimal_value m * 60
  /\ forall s,
       is_decimal s ->
       _parse_time_string (h ++ chr_colon :: m ++ chr_colon :: s)
       = inr (decimal_value h * 3600 + decimal_value m * 60 + decimal_value s)
       /\ 0 <= decimal_value h * 3600 + decimal_value m * 60 + decimal_value s.
Proof.
  intros Hh Hm.
  pose proof (decimal_value_nonneg h (proj1 (proj2 Hh))) as Nh.
  pose proof (decimal_value_nonneg m (proj1 (proj2 Hm))) as Nm.
  pose proof (decimal_no_colon h (proj1 (proj2 Hh))) as Ch.
  pose proof (decimal_no_colon m (proj1 (proj2 Hm))) as Cm.
  split; [| split; [lia |]].
  - rewrite (parse_time_string_two _ _ Ch Cm), (int_decimal h Hh), (int_decimal m Hm).
    reflexivity.
  - intros s Hs.
    pose proof (decimal_value_nonneg s (proj1 (proj2 Hs))) as Ns.
    pose proof (decimal_no_colon s (proj1 (proj2 Hs))) as Cs.
    split; [| lia].
    rewrite (parse_time_string_three _ _ _ Ch Cm Cs),
      (int_decimal h Hh), (int_decimal m Hm), (int_decimal s Hs).
    reflexivity.
Qed.

Lemma is_decimal_check (s : str) :
  (negb (is_empty s) && forallb isdigit s
   && (List.length s <=? int_max_str_digits)%nat) = true ->
  is_decimal s.
Proof.
  intros H. apply andb_true_iff in H. destruct H as [H Hl].
  apply andb_true_iff in H. destruct H as [Hn Hd].
  repeat split; [| exact Hd | now apply Nat.leb_le].
  intros ->. discriminate.
Qed.

Lemma decimal_duration_parses_witness :
  is_decimal (lit "0") /\ is_decimal (lit "05")
  /\ _parse_time_string (lit "0:05") = inr 300.
Proof.
  assert (H0 : is_decimal (lit "0")) by (apply is_decimal_check; reflexivity).
  assert (H1 : is_decimal (lit "05")) by (apply is_decimal_check; reflexivity).
  split; [exact H0 |]. split; [exact H1 |].
  exact (proj1 (decimal_duration_parses (lit "0") (lit "05") H0 H1)).
Defined.

(** ** Batches of specifications *)

(** What a call of [add_input] comes to, read against the model alone. *)
Lemma add_input_cases (g : MappingGenerator) (spec : str) :
  (accepts_input (parser g) spec = false
   /\ exists e, add_input g spec = (g, Rejected e))
  \/ (accepts_input (parser g) spec = true
      /\ exists t,
          _get_object_type g (id_part spec) = Some t
          /\ In (property_part spec) (valid_input_properties t)
          /\ add_input g spec
             = (append_input g
                  (mkEntry (List.length (inputs g) + 1) (id_part spec) t
                           (property_part spec)), Added)).
Proof.
  unfold accepts_input, add_input, id_part, property_part, _get_object_type,
    _is_valid_input_property. fold chr_colon. cbn [parser MappingGenerator_init].
  destruct (negb (List.length (split chr_colon spec) =? 2)%nat);
    [left; split; [reflexivity | eauto] |].
  destruct (str_in _ (junctions (parser g)) || str_in _ (reservoirs (parser g))
            || str_in _ (tanks (parser g))).
  { destruct (str_in _ (valid_input_properties NODE)) eqn:V; cbn [negb].
    - right. split; [reflexivity |]. exists NODE. apply str_in_In in V. now repeat split.
    - left. split; [reflexivity | eauto]. }
  destruct (str_in _ (pipes (parser g)) || str_in _ (pumps (parser g))
            || str_in _ (valves (parser g))).
  { destruct (str_in _ (valid_input_properties LINK)) eqn:V; cbn [negb].
    - right. split; [reflexivity |]. exists LINK. apply str_in_In in V. now repeat split.
    - left. split; [reflexivity | eauto]. }
  destruct (str_in _ (patterns (parser g))).
  { destruct (str_in _ (valid_input_properties PATTERN)) eqn:V; cbn [negb].
    - right. split; [reflexivity |]. exists PATTERN. apply str_in_In in V. now repeat split.
    - left. split; [reflexivity | eauto]. }
  left. split; [reflexivity | eauto].
Qed.

Lemma add_output_cases (g : MappingGenerator) (spec : str) :
  (accepts_output (parser g) spec = false
   /\ exists e, add_output g spec = (g, Rejected e))
  \/ (accepts_output (parser g) spec = true
      /\ exists t,
          _get_object_type g (id_part spec) = Some t
          /\ In (property_part spec) (valid_output_properties t)
          /\ add_output g spec
             = (append_output g
                  (mkEntry (List.length (outputs g)) (id_part spec) t
                           (property_part spec)), Added)).
Proof.
  unfold accepts_output, add_output, id_part, property_part, _get_object_type,
    _is_valid_output_property. fold chr_colon. cbn [parser MappingGenerator_init].
  destruct (negb (List.length (split chr_colon spec) =? 2)%nat);
    [left; split; [reflexivity | eauto] |].
  destruct (str_in _ (junctions (parser g)) || str_in _ (reservoirs (parser g))
            || str_in _ (tanks (parser g))).
  { destruct (str_in _ (valid_output_properties NODE)) eqn:V; cbn [negb].
    - right. split; [reflexivity |]. exists NODE. apply str_in_In in V. now repeat split.
    - left. split; [reflexivity | eauto]. }
  destruct (str_in _ (pipes (parser g)) || str_in _ (pumps (parser g))
            || str_in _ (valves (parser g))).
  { destruct (str_in _ (valid_output_properties LINK)) eqn:V; cbn [negb].
    - right. split; [reflexivity |]. exists LINK. apply str_in_In in V. now repeat split.
    - left. split; [reflexivity | eauto]. }
  destruct (str_in _ (patterns (parser g))).
  { destruct (str_in _ (valid_output_properties PATTERN)) eqn:V; cbn [negb].
    - right. split; [reflexivity |]. exists PATTERN. apply str_in_In in V. now repeat split.
    - left. split; [reflexivity | eauto]. }
  left. split; [reflexivity | eauto].
Qed.

(** A batch of inputs goes through exactly when each of its strings is
    accepted by the model. *)
Lemma add_all_input_spec (specs : list str) (g : MappingGenerator) :
  if forallb (accepts_input (parser g)) specs
  then exists g' new,
      add_all add_input specs g = Some g'
      /\ parser g' = parser g /\ inp_file g' = inp_file g
      /\ outputs g' = outputs g
      /\ inputs g' = inputs g ++ new
      /\ map name new = map id_part specs
      /\ map property new = map property_part specs
  else add_all add_input specs g = None.
Proof.
  revert g. induction specs as [| spec specs IH]; intros g; cbn [forallb add_all].
  - exists g, []. rewrite app_nil_r. now repeat split.
  - destruct (add_input_cases g spec) as [[A [e E]] | [A [t [_ [_ E]]]]];
      rewrite A, E; cbn [andb]; [reflexivity |].
    specialize (IH (append_input g
                      (mkEntry (List.length (inputs g) + 1) (id_part spec) t
                               (property_part spec)))).
    cbn [parser append_input] in IH.
    destruct (forallb (accepts_input (parser g)) specs); [| exact IH].
    destruct IH as [g' [new [H [Hp [Hf [Ho [Hi [Hn Hq]]]]]]]].
    exists g', (mkEntry (List.length (inputs g) + 1) (id_part spec) t
                        (property_part spec) :: new).
    unfold append_input in Hf, Ho, Hi. cbn [inp_file outputs inputs] in *.
    rewrite <- app_assoc in Hi.
    repeat split; try assumption; cbn [map name property]; now f_equal.
Qed.

Lemma add_all_output_spec (specs : list str) (g : MappingGenerator) :
  if forallb (accepts_output (parser g)) specs
  then exists g' new,
      add_all add_output specs g = Some g'
      /\ parser g' = parser g /\ inp_file g' = inp_file g
      /\ inputs g' = inputs g
      /\ outputs g' = outputs g ++ new
      /\ map name new = map id_part specs
      /\ map property new = map property_part specs
  else add_all add_output specs g = None.
Proof.
  revert g. induction specs as [| spec specs IH]; intros g; cbn [forallb add_all].
  - exists g, []. rewrite app_nil_r. now repeat split.
  - destruct (add_output_cases g spec) as [[A [e E]] | [A [t [_ [_ E]]]]];
      rewrite A, E; cbn [andb]; [reflexivity |].
    specialize (IH (append_output g
                      (mkEntry (List.length (outputs g)) (id_part spec) t
                               (property_part spec)))).
    cbn [parser append_output] in IH.
    destruct (forallb (accepts_output (parser g)) specs); [| exact IH].
    destruct IH as [g' [new [H [Hp [Hf [Ho [Hi [Hn Hq]]]]]]]].
    exists g', (mkEntry (List.length (outputs g)) (id_part spec) t
                        (property_part spec) :: new).
    unfold append_output in Hf, Ho, Hi. cbn [inp_file outputs inputs] in *.
    rewrite <- app_assoc in Hi.
    repeat split; try assumption; cbn [map name property]; now f_equal.
Qed.

(** The test on the option of the command line is the test on its list. *)
Lemma truthy_given (add : MappingGenerator -> str -> MappingGenerator * add_result)
  (l : option (list str)) (g : MappingGenerator) :
  (if truthy l then add_all add (given l) g else Some g) = add_all add (given l) g.
Proof. destruct l as [[| x l] |]; reflexivity. Qed.

(** [main] with its two tests on the options read as batches, and the
    timestep formatted once: the generator that reaches [generate_json] has
    the parser of the run, whose timestep was formatted already. *)
Lemma main_unfold (args : args_t) (env : env_t) :
  main args env
  = match parse EpanetInpParser_init (env_text env) with
    | inl e => inl e
    | inr (false, _) => inr (1, None)
    | inr (true, p) =>
        match str_of_int (hydraulic_timestep p) with
        | inl e => inl e
        | inr _ =>
            match add_all add_input (given (args_inputs args))
                    (MappingGenerator_init p (args_inp_file args)) with
            | None => inr (1, None)
            | Some g1 =>
                match (if truthy (args_outputs args)
                       then add_all add_output (given (args_outputs args)) g1
                       else Some (generate_default_outputs g1 (args_quality args))) with
                | None => inr (1, None)
                | Some g2 =>
                    if env_writable env
                    then inr (0, Some (build_config g2 (args_logging_level args)
                                         (env_binary env)))
                    else inr (1, None)
                end
            end
        end
    end.
Proof.
  unfold main.
  destruct (parse EpanetInpParser_init (env_text env)) as [e | [[] p]];
    cbn [bind negb ret]; try reflexivity.
  destruct (str_of_int (hydraulic_timestep p)) as [e | txt] eqn:S;
    cbn [bind ret]; [reflexivity |].
  fold (given (args_inputs args)). fold (given (args_outputs args)).
  rewrite truthy_given.
  pose proof (add_all_input_spec (given (args_inputs args))
                (MappingGenerator_init p (args_inp_file args))) as A.
  cbn [parser MappingGenerator_init] in A.
  destruct (forallb (accepts_input p) (given (args_inputs args)));
    [| now rewrite A].
  destruct A as [g1 [new [A [Hp _]]]]. rewrite A.
  assert (G : forall g2, parser g2 = p ->
                (r <- generate_json g2 (args_logging_level args) (env_binary env)
                        (env_writable env) ;;
                 match r with
                 | (true, written) => ret (0, written)
                 | (false, _) => ret (1, None)
                 end)
                = (if env_writable env
                   then inr (0, Some (build_config g2 (args_logging_level args)
                                        (env_binary env)))
                   else inr (1, None))).
  { intros g2 Hg. rewrite generate_json_unfold, Hg, S. cbn [bind ret].
    now destruct (env_writable env). }
  destruct (truthy (args_outputs args)).
  - pose proof (add_all_output_spec (given (args_outputs args)) g1) as B.
    destruct (forallb (accepts_output (parser g1)) (given (args_outputs args)));
      [| now rewrite B].
    destruct B as [g2 [new2 [B [Hp2 _]]]]. rewrite B. apply G. congruence.
  - apply G. rewrite generate_default_outputs_spec. exact Hp.
Qed.

Lemma parse_ok (content : str) ok p :
  parse EpanetInpParser_init (Some content) = inr (ok, p) -> ok = true.
Proof. intros H. now apply parse_returns in H. Qed.

(** X5.  [add_output] rejects a string that does not hold exactly one
    colon as badly formed.  On [id:property] it rejects an identifier of no
    category as unknown and a property outside the output table of the type
    of [id] as invalid; otherwise the generator comes back with one entry
    appended to its outputs, and nothing else changed: the entry carries the
    identifier, its type and the property, and its index is the number of
    outputs so far (from 0, nothing being reserved). *)
Theorem add_output_contract (g : MappingGenerator) (spec : str) :
  (count_occ ascii_dec spec chr_colon <> 1%nat ->
   add_output g spec = (g, Rejected (InvalidSpecFormat spec)))
  /\ forall id prop,
      spec = id ++ chr_colon :: prop ->
      ~ In chr_colon id -> ~ In chr_colon prop ->
      (_get_object_type g id = None ->
       add_output g spec = (g, Rejected (UnknownElement id)))
      /\ (forall t, _get_object_type g id = Some t ->
          ~ In prop (valid_output_properties t) ->
          add_output g spec = (g, Rejected (InvalidProperty prop t)))
      /\ (forall t, _get_object_type g id = Some t ->
          In prop (valid_output_properties t) ->
          add_output g spec
          = (mkGenerator (parser g) (inp_file g) (inputs g)
               (outputs g ++ [mkEntry (List.length (outputs g)) id t prop]),
             Added)).
Proof.
  split; [apply add_output_malformed |].
  intros id prop -> Hi Hp. rewrite (add_output_wellformed g id prop Hi Hp).
  split; [intros E; now rewrite E |].
  split; intros t E Hin; rewrite E.
  - apply str_in_false in Hin. now rewrite Hin.
  - apply str_in_In in Hin. now rewrite Hin.
Qed.

Lemma add_output_contract_witness :
  In (lit "PRESSURE") (valid_output_properties NODE)
  /\ add_output sample_generator (lit "J2:PRESSURE")
     = (mkGenerator sample_parser (lit "net.inp") []
          [mkEntry 0 (lit "J2") NODE (lit "PRESSURE")],
        Added).
Proof.
  split; [now left |].
  refine (proj2 (proj2 (proj2 (add_output_contract sample_generator (lit "J2:PRESSURE"))
                          (lit "J2") (lit "PRESSURE") eq_refl _ _)) NODE eq_refl _).
  - intros H. simpl in H. intuition discriminate.
  - intros H. simpl in H. intuition discriminate.
  - now left.
Defined.

(** X6.  A pattern cannot be an output: whatever the property, [add_output]
    rejects a specification whose identifier resolves to PATTERN, although
    [add_input] accepts it with the property MULTIPLIER. *)
Theorem pattern_is_input_only (g : MappingGenerator) (id prop : str) :
  ~ In chr_colon id -> ~ In chr_colon prop ->
  _get_object_type g id = Some PATTERN ->
  add_output g (id ++ chr_colon :: prop) = (g, Rejected (InvalidProperty prop PATTERN))
  /\ add_input g (id ++ chr_colon :: lit "MULTIPLIER")
     = (append_input g
          (mkEntry (List.length (inputs g) + 1) id PATTERN (lit "MULTIPLIER")), Added).
Proof.
  intros Hi Hp E. split.
  - rewrite (add_output_wellformed g id prop Hi Hp), E. reflexivity.
  - rewrite (add_input_wellformed g id (lit "MULTIPLIER") Hi), E; [reflexivity |].
    intros H. simpl in H. intuition discriminate.
Qed.

Lemma pattern_is_input_only_witness :
  _get_object_type sample_generator (lit "PAT") = Some PATTERN
  /\ add_output sample_generator (lit "PAT:MULTIPLIER")
     = (sample_generator, Rejected (InvalidProperty (lit "MULTIPLIER") PATTERN)).
Proof.
  split; [reflexivity |].
  refine (proj1 (pattern_is_input_only sample_generator (lit "PAT") (lit "MULTIPLIER")
                   _ _ eq_refl)).
  - intros H. simpl in H. intuition discriminate.
  - intros H. simpl in H. intuition discriminate.
Defined.

Lemma count_occ_colon_id (id prop : str) :
  In chr_colon id ->
  count_occ ascii_dec (id ++ chr_colon :: prop) chr_colon <> 1%nat.
Proof.
  intros H. rewrite count_occ_app. simpl.
  destruct (ascii_dec chr_colon chr_colon); [| congruence].
  apply (count_occ_In ascii_dec) in H. lia.
Qed.

(** X7.  An element whose identifier holds a colon cannot be mapped: a
    specification that names it is rejected as badly formed by [add_input] and
    by [add_output], whether or not the model has the element. *)
Theorem colon_in_identifier_rejected (g : MappingGenerator) (id prop : str) :
  In chr_colon id ->
  add_input g (id ++ chr_colon :: prop)
  = (g, Rejected (InvalidSpecFormat (id ++ chr_colon :: prop)))
  /\ add_output g (id ++ chr_colon :: prop)
     = (g, Rejected (InvalidSpecFormat (id ++ chr_colon :: prop))).
Proof.
  intros H. split.
  - apply add_input_malformed. now apply count_occ_colon_id.
  - apply add_output_malformed. now apply count_occ_colon_id.
Qed.

Lemma colon_in_identifier_rejected_witness :
  In chr_colon (lit "J:1")
  /\ parse EpanetInpParser_init (Some colon_id_text)
     = inr (true, mkParser [lit "J:1"] [] [] [] [] [] [] 3600 false)
  /\ add_input
       (MappingGenerator_init (mkParser [lit "J:1"] [] [] [] [] [] [] 3600 false) [])
       (lit "J:1:DEMAND")
     = (MappingGenerator_init (mkParser [lit "J:1"] [] [] [] [] [] [] 3600 false) [],
        Rejected (InvalidSpecFormat (lit "J:1:DEMAND"))).
Proof.
  assert (H : In chr_colon (lit "J:1")) by (right; now left).
  split; [exact H |]. split; [reflexivity |].
  exact (proj1 (colon_in_identifier_rejected _ (lit "J:1") (lit "DEMAND") H)).
Defined.

(** X8.  A batch of specifications is all or nothing, and each string is
    judged against the model alone, not against what was added before it:
    [add_input] over a list is carried through exactly when every string of
    the list is accepted on a fresh generator of the model, and then the new
    inputs carry the identifiers and properties of the strings, in their
    order; otherwise the batch stops at a rejection.  The same holds of
    [add_output]. *)
Theorem batch_all_or_nothing (specs : list str) (g : MappingGenerator) :
  (if forallb (accepts_input (parser g)) specs
   then exists g' new,
       add_all add_input specs g = Some g'
       /\ outputs g' = outputs g
       /\ inputs g' = inputs g ++ new
       /\ map name new = map id_part specs
       /\ map property new = map property_part specs
   else add_all add_input specs g = None)
  /\ (if forallb (accepts_output (parser g)) specs
      then exists g' new,
          add_all add_output specs g = Some g'
          /\ inputs g' = inputs g
          /\ outputs g' = outputs g ++ new
          /\ map name new = map id_part specs
          /\ map property new = map property_part specs
      else add_all add_output specs g = None).
Proof.
  split.
  - pose proof (add_all_input_spec specs g) as H.
    destruct (forallb (accepts_input (parser g)) specs); [| exact H].
    destruct H as [g' [new [H [_ [_ [Ho [Hi [Hn Hq]]]]]]]].
    exists g', new. now repeat split.
  - pose proof (add_all_output_spec specs g) as H.
    destruct (forallb (accepts_output (parser g)) specs); [| exact H].
    destruct H as [g' [new [H [_ [_ [Ho [Hi [Hn Hq]]]]]]]].
    exists g', new. now repeat split.
Qed.

(** X9.  The two lists are independent: adding an input and then an output
    gives the generator that adding the output and then the input gives. *)
Theorem add_input_add_output_commute (g : MappingGenerator) (a b : str) :
  fst (add_output (fst (add_input g a)) b)
  = fst (add_input (fst (add_output g b)) a).
Proof.
  destruct (add_input_cases g a) as [[Aa [ea Ea]] | [Aa [ta [Ta [_ Ea]]]]];
    destruct (add_output_cases g b) as [[Ab [eb Eb]] | [Ab [tb [Tb [_ Eb]]]]];
    rewrite Ea, Eb; cbn [fst]; rewrite ?Ea, ?Eb; cbn [fst]; try reflexivity.
  - match goal with
    | |- _ = fst (add_input ?g' a) =>
        destruct (add_input_cases g' a) as [[A' [e' E']] | [A' [t' [_ [_ E']]]]]
    end; cbn [parser append_output] in A'; [| congruence].
    now rewrite E'.
  - match goal with
    | |- fst (add_output ?g' b) = _ =>
        destruct (add_output_cases g' b) as [[A' [e' E']] | [A' [t' [_ [_ E']]]]]
    end; cbn [parser append_input] in A'; [| congruence].
    now rewrite E'.
  - match goal with
    | |- fst (add_output ?ga b) = fst (add_input ?gb a) =>
        destruct (add_output_cases ga b) as [[Ab' _] | [_ [tb' [Tb' [_ Eb']]]]];
        [cbn [parser append_input] in Ab'; congruence |];
        destruct (add_input_cases gb a) as [[Aa' _] | [_ [ta' [Ta' [_ Ea']]]]];
        [cbn [parser append_output] in Aa'; congruence |]
    end.
    rewrite Eb', Ea'. cbn [fst].
    unfold _get_object_type in Ta, Tb, Ta', Tb'.
    cbn [parser append_input append_output] in Ta', Tb'.
    rewrite Ta in Ta'. rewrite Tb in Tb'. inversion Ta'. inversion Tb'.
    reflexivity.
Qed.

(** ** The run, as a whole *)

(** The generator a run builds the configuration from. *)
Lemma main_generator (args : args_t) (env : env_t) code c :
  main args env = inr (code, Some c) ->
  exists content p g1 g2,
    env_text env = Some content
    /\ parse EpanetInpParser_init (Some content) = inr (true, p)
    /\ add_all add_input (given (args_inputs args))
         (MappingGenerator_init p (args_inp_file args)) = Some g1
    /\ (if truthy (args_outputs args)
        then add_all add_output (given (args_outputs args)) g1
        else Some (generate_default_outputs g1 (args_quality args))) = Some g2
    /\ env_writable env = true
    /\ code = 0
    /\ c = build_config g2 (args_logging_level args) (env_binary env)
    /\ exists txt, str_of_int (hydraulic_timestep p) = inr txt.
Proof.
  rewrite main_unfold.
  destruct (env_text env) as [content |] eqn:T; [| discriminate].
  destruct (parse EpanetInpParser_init (Some content)) as [e | [[] p]] eqn:P;
    try discriminate.
  destruct (str_of_int (hydraulic_timestep p)) as [e | txt] eqn:S;
    [discriminate |].
  destruct (add_all add_input _ _) as [g1 |] eqn:E1; [| discriminate].
  destruct (if truthy (args_outputs args) then _ else _) as [g2 |] eqn:E2;
    [| discriminate].
  destruct (env_writable env); [| discriminate].
  intros H. inversion H. exists content, p, g1, g2.
  repeat split; try assumption. now exists txt.
Qed.

(** X10.  A run that returns ends with the exit code 0 and a configuration
    written, or with the exit code 1 and nothing written; when the model file
    cannot be read it is the latter, whatever the command line. *)
Theorem main_exit_code (args : args_t) (env : env_t) :
  (forall code written,
     main args env = inr (code, written) ->
     (code = 0 /\ exists c, written = Some c) \/ (code = 1 /\ written = None))
  /\ (env_text env = None -> main args env = inr (1, None)).
Proof.
  split.
  - rewrite main_unfold. intros code written.
    destruct (parse EpanetInpParser_init (env_text env)) as [e | [[] p]];
      try discriminate.
    + destruct (str_of_int (hydraulic_timestep p)); [discriminate |].
      destruct (add_all add_input _ _) as [g1 |].
      * destruct (if truthy (args_outputs args) then _ else _) as [g2 |].
        -- destruct (env_writable env); intros H; inversion H; eauto.
        -- intros H; inversion H; eauto.
      * intros H; inversion H; eauto.
    + intros H; inversion H; eauto.
  - intros H. rewrite main_unfold, H. reflexivity.
Qed.

Lemma main_exit_code_witness :
  env_text (mkEnv None Unopenable true) = None
  /\ main sample_args (mkEnv None Unopenable true) = inr (1, None).
Proof.
  split; [reflexivity |].
  exact (proj2 (main_exit_code sample_args (mkEnv None Unopenable true)) eq_refl).
Defined.



(** X12.  The configuration a run writes lists, after the ElapsedTime
    entry, one input per [--input] string, in the order of the command line,
    each with the identifier and the property of its string; its input count
    is their number plus one.  When [--output] strings are given, its outputs
    are theirs in the same way and its output count is their number. *)
Theorem main_lists_specifications_in_order (args : args_t) (env : env_t) code c :
  main args env = inr (code, Some c) ->
  map name (cfg_inputs c) = lit "ElapsedTime" :: map id_part (given (args_inputs args))
  /\ map property (cfg_inputs c)
     = lit "ELAPSEDTIME" :: map property_part (given (args_inputs args))
  /\ cfg_input_count c = S (List.length (given (args_inputs args)))
  /\ (truthy (args_outputs args) = true ->
      map name (cfg_outputs c) = map id_part (given (args_outputs args))
      /\ map property (cfg_outputs c) = map property_part (given (args_outputs args))
      /\ cfg_output_count c = List.length (given (args_outputs args))).
Proof.
  intros H. apply main_generator in H.
  destruct H as [content [p [g1 [g2 [_ [_ [E1 [E2 [_ [_ [-> _]]]]]]]]]]].
  pose proof (add_all_input_spec (given (args_inputs args))
                (MappingGenerator_init p (args_inp_file args))) as A.
  destruct (forallb _ (given (args_inputs args))); [| congruence].
  destruct A as [g1' [new [A [Hp [_ [Ho [Hi [Hn Hq]]]]]]]].
  rewrite E1 in A. inversion A. subst g1'. clear A.
  cbn [inputs outputs MappingGenerator_init app] in Hi, Ho.
  assert (I2 : inputs g2 = new /\
               (truthy (args_outputs args) = true ->
                map name (outputs g2) = map id_part (given (args_outputs args))
                /\ map property (outputs g2)
                   = map property_part (given (args_outputs args)))).
  { destruct (truthy (args_outputs args)).
    - pose proof (add_all_output_spec (given (args_outputs args)) g1) as B.
      destruct (forallb _ (given (args_outputs args))); [| congruence].
      destruct B as [g2' [new2 [B [_ [_ [Bi [Bo [Bn Bq]]]]]]]].
      rewrite E2 in B. inversion B. subst g2'.
      rewrite Bi, Bo, Ho, Hi. cbn [app]. now split.
    - inversion E2. rewrite generate_default_outputs_spec. cbn [inputs].
      split; [exact Hi | discriminate]. }
  destruct I2 as [I2 O2].
  unfold build_config, make_config.
  cbn [cfg_inputs cfg_outputs cfg_input_count cfg_output_count].
  rewrite I2. cbn [app map List.length name property ElapsedTime_entry].
  rewrite Hn, Hq.
  repeat split.
  - f_equal. rewrite <- (length_map name new), Hn. apply length_map.
  - now apply O2.
  - now apply O2.
  - rewrite <- (length_map name (outputs g2)), (proj1 (O2 H)). apply length_map.
Qed.

Lemma main_lists_specifications_in_order_witness :
  exists c,
    main (mkArgs (lit "net.inp") (Some [lit "T1:DEMAND"; lit "P1:STATUS"])
            (Some [lit "J2:HEAD"]) (lit "out.json") false (lit "INFO"))
         (sample_env sample_text) = inr (0, Some c)
    /\ map name (cfg_inputs c) = [lit "ElapsedTime"; lit "T1"; lit "P1"]
    /\ cfg_input_count c = 3%nat.
Proof.
  eexists. split; [reflexivity |].
  pose proof (main_lists_specifications_in_order
                (mkArgs (lit "net.inp") (Some [lit "T1:DEMAND"; lit "P1:STATUS"])
                   (Some [lit "J2:HEAD"]) (lit "out.json") false (lit "INFO"))
                (sample_env sample_text) 0 _ eq_refl) as [Hn [_ [Hc _]]].
  split; [exact Hn | exact Hc].
Defined.

(** ** Identifiers *)

Lemma lstrip_In (s : str) c : In c (lstrip s) -> In c s.
Proof.
  intros H. destruct (lstrip_suffix s) as [ws [E _]]. rewrite E.
  apply in_or_app. now right.
Qed.

Lemma rstrip_In (s : str) c : In c (rstrip s) -> In c s.
Proof.
  intros H. destruct (rstrip_prefix s) as [ws [E _]]. rewrite E.
  apply in_or_app. now left.
Qed.

Lemma strip_In (s : str) c : In c (strip s) -> In c s.
Proof. intros H. apply lstrip_In. now apply rstrip_In. Qed.

(** A well-formed identifier: a token without whitespace or semicolon. *)
Lemma ids_of_body_tokens (body id : str) :
  In id (ids_of_body body) ->
  id <> [] /\ forall c, In c id -> isspace c = false /\ c <> chr_semicolon.
Proof.
  unfold ids_of_body, element_lines. intros H.
  apply in_map_iff in H. destruct H as [l [<- Hl]].
  apply filter_In in Hl. destruct Hl as [Hl Hne].
  apply in_map_iff in Hl. destruct Hl as [line [<- _]].
  destruct (strip (before_semicolon line)) as [| c r] eqn:E; [discriminate |].
  assert (Hc : isspace c = false) by exact (strip_head _ _ _ E).
  unfold first_token. rewrite (lstrip_fixed (c :: r) c r eq_refl Hc).
  split.
  - simpl. rewrite Hc. discriminate.
  - intros d Hd. apply take_while_In in Hd. destruct Hd as [Hs Hin].
    split; [now destruct (isspace d) |].
    rewrite <- E in Hin. apply strip_In in Hin.
    unfold before_semicolon in Hin. apply take_while_In in Hin.
    destruct Hin as [Hsc _]. apply negb_true_iff in Hsc. now apply Ascii.eqb_neq.
Qed.

Lemma parse_section_ids (content header id : str) :
  In id (_parse_section content header []) ->
  id <> [] /\ forall c, In c id -> isspace c = false /\ c <> chr_semicolon.
Proof.
  destruct (section_content header content) as [body |] eqn:E.
  - rewrite (parse_section_present _ _ _ _ E). apply ids_of_body_tokens.
  - rewrite (parse_section_absent _ _ _ E). contradiction.
Qed.

(** X13.  Every identifier of a parsed model, node, link or pattern, is a
    token: it is not empty and holds no whitespace (so no newline) and no
    semicolon. *)
Theorem parsed_identifiers_are_tokens (content : str) ok (p : EpanetInpParser) (id : str) :
  parse EpanetInpParser_init (Some content) = inr (ok, p) ->
  In id (get_all_nodes p ++ get_all_links p ++ patterns p) ->
  id <> [] /\ forall c, In c id -> isspace c = false /\ c <> chr_semicolon.
Proof.
  intros H Hin. apply parse_lists in H.
  destruct H as [A1 [A2 [A3 [A4 [A5 [A6 A7]]]]]].
  unfold get_all_nodes, get_all_links in Hin.
  rewrite A1, A2, A3, A4, A5, A6, A7 in Hin.
  rewrite !in_app_iff in Hin.
  destruct Hin as [[Hin | [Hin | Hin]] | [[Hin | [Hin | Hin]] | Hin]];
    now apply parse_section_ids in Hin.
Qed.

Lemma parsed_identifiers_are_tokens_witness :
  parse EpanetInpParser_init (Some sample_text)
  = inr (true,
         mkParser [lit "J1"; lit "J2"] [] [lit "T1"] [lit "P1"] [] [] [lit "J1"]
                  300 false)
  /\ lit "P1" <> []
  /\ forall c, In c (lit "P1") -> isspace c = false /\ c <> chr_semicolon.
Proof.
  split; [reflexivity |].
  refine (parsed_identifiers_are_tokens sample_text true _ (lit "P1") eq_refl _).
  simpl. intuition.
Defined.

(** ** Entries *)

Lemma get_object_type_names (g : MappingGenerator) (id : str) t :
  _get_object_type g id = Some t ->
  match t with
  | NODE => is_node (parser g) id
  | LINK => is_link (parser g) id /\ ~ is_node (parser g) id
  | PATTERN => is_pattern (parser g) id
  | SYSTEM => False
  end.
Proof.
  destruct (get_object_type_cases g id)
    as [[N E] | [[N [L E]] | [[N [L [P E]]] | [N [L [P E]]]]]]; rewrite E;
    intros H; inversion H; subst; tauto.
Qed.

Lemma number_from_In start bs e :
  In e (number_from start bs) ->
  In (name e, object_type e, property e) bs.
Proof.
  revert start. induction bs as [| [[id t] prop] bs IH]; intros start; simpl;
    [contradiction |].
  intros [<- | H]; [now left | right; exact (IH _ H)].
Qed.

Lemma bindings_In t prop ids b :
  In b (bindings t prop ids) -> exists id, In id ids /\ b = (id, t, prop).
Proof.
  unfold bindings. intros H. apply in_map_iff in H.
  destruct H as [id [<- Hin]]. now exists id.
Qed.

(** What the default bindings are made of. *)
Lemma default_bindings_In p q id t prop :
  In (id, t, prop) (default_bindings p q) ->
  (t = NODE /\ is_node p id /\ In prop (valid_output_properties NODE))
  \/ (t = LINK /\ is_link p id /\ In prop (valid_output_properties LINK)).
Proof.
  unfold default_bindings, is_node, is_link. rewrite !in_app_iff.
  intros [H | [H | [H | H]]].
  - apply bindings_In in H. destruct H as [x [Hx E]]. inversion E; subst.
    left. repeat split; [tauto | simpl; tauto].
  - apply bindings_In in H. destruct H as [x [Hx E]]. inversion E; subst.
    left. repeat split; [tauto | simpl; tauto].
  - apply bindings_In in H. destruct H as [x [Hx E]]. inversion E; subst.
    rewrite !in_app_iff in Hx.
    right. repeat split; [tauto | simpl; tauto].
  - destruct q; [| contradiction]. rewrite in_app_iff in H. destruct H as [H | H].
    + apply bindings_In in H. destruct H as [x [Hx E]]. inversion E; subst.
      rewrite !in_app_iff in Hx.
      left. repeat split; [tauto | simpl; tauto].
    + apply bindings_In in H. destruct H as [x [Hx E]]. inversion E; subst.
      rewrite !in_app_iff in Hx.
      right. repeat split; [tauto | simpl; tauto].
Qed.

Lemma reachable_entries p f g :
  reachable p f g ->
  (forall e, In e (inputs g) ->
     _get_object_type g (name e) = Some (object_type e)
     /\ In (property e) (valid_input_properties (object_type e)))
  /\ (forall e, In e (outputs g) ->
        names_element p e
        /\ In (property e) (valid_output_properties (object_type e))).
Proof.
  intros R. pose proof (reachable_parser _ _ _ R) as [Pg _]. revert Pg.
  induction R as [| g spec R IH | g spec R IH | g q R IH]; intros Pg.
  - split; intros e [].
  - pose proof (reachable_parser _ _ _ R) as [Pg0 _]. specialize (IH Pg0).
    destruct IH as [Hi Ho].
    destruct (add_input_cases g spec) as [[_ [e0 E]] | [_ [t [T [V E]]]]];
      rewrite E; cbn [fst]; [now split |].
    split; [| exact Ho].
    intros e He. cbn [inputs append_input] in He. apply in_app_or in He.
    destruct He as [He | [<- | []]]; [exact (Hi e He) |].
    cbn [name object_type property]. split; [exact T | exact V].
  - pose proof (reachable_parser _ _ _ R) as [Pg0 _]. specialize (IH Pg0).
    destruct IH as [Hi Ho].
    destruct (add_output_cases g spec) as [[_ [e0 E]] | [_ [t [T [V E]]]]];
      rewrite E; cbn [fst]; [now split |].
    split; [exact Hi |].
    intros e He. cbn [outputs append_output] in He. apply in_app_or in He.
    destruct He as [He | [<- | []]]; [exact (Ho e He) |].
    unfold names_element. cbn [name object_type property]. split; [| exact V].
    apply get_object_type_names in T. rewrite Pg0 in T.
    destruct t; tauto.
  - pose proof (reachable_parser _ _ _ R) as [Pg0 _]. specialize (IH Pg0).
    destruct IH as [Hi Ho]. rewrite generate_default_outputs_spec.
    cbn [inputs outputs]. split; [exact Hi |].
    intros e He. apply in_app_or in He. destruct He as [He | He]; [exact (Ho e He) |].
    apply number_from_In in He. rewrite Pg0 in He.
    apply default_bindings_In in He. unfold names_element.
    destruct He as [[-> [N V]] | [-> [L V]]]; now split.
Qed.

(** X15.  Whatever the calls made on a generator, its entries stay valid
    for the model: each input names an element that resolves to the type the
    entry records and carries a property of the input table of that type;
    each output names an element of the category of its type and carries a
    property of the output table of that type.  So no entry of either list
    has the type SYSTEM, and no output has the type PATTERN. *)
Theorem entries_stay_valid p f g :
  reachable p f g ->
  (forall e, In e (inputs g) ->
     _get_object_type g (name e) = Some (object_type e)
     /\ names_element p e
     /\ In (property e) (valid_input_properties (object_type e))
     /\ object_type e <> SYSTEM)
  /\ (forall e, In e (outputs g) ->
        names_element p e
        /\ In (property e) (valid_output_properties (object_type e))
        /\ object_type e <> SYSTEM /\ object_type e <> PATTERN).
Proof.
  intros R. pose proof (reachable_parser _ _ _ R) as [Pg _].
  destruct (reachable_entries _ _ _ R) as [Hi Ho]. split.
  - intros e He. destruct (Hi e He) as [T V].
    pose proof (get_object_type_names _ _ _ T) as N. rewrite Pg in N.
    unfold names_element.
    repeat split; try assumption.
    + destruct (object_type e); tauto.
    + intros E. rewrite E in V. contradiction.
  - intros e He. destruct (Ho e He) as [N V].
    repeat split; try assumption; intros E; rewrite E in V; contradiction.
Qed.

Lemma entries_stay_valid_witness :
  reachable sample_parser (lit "net.inp")
    (generate_default_outputs
       (fst (add_input sample_generator (lit "PAT:MULTIPLIER"))) true)
  /\ forall e,
      In e (outputs (generate_default_outputs
                       (fst (add_input sample_generator (lit "PAT:MULTIPLIER"))) true)) ->
      object_type e <> PATTERN.
Proof.
  assert (R : reachable sample_parser (lit "net.inp")
                (generate_default_outputs
                   (fst (add_input sample_generator (lit "PAT:MULTIPLIER"))) true))
    by repeat constructor.
  split; [exact R |].
  intros e He.
  exact (proj2 (proj2 (proj2 (proj2 (entries_stay_valid _ _ _ R) e He)))).
Defined.

(** ** Default outputs as explicit ones *)

Lemma add_all_output_bindings (bs : list (str * object_type_t * str))
  (g : MappingGenerator) :
  (forall id t prop,
     In (id, t, prop) bs ->
     ~ In chr_colon id /\ ~ In chr_colon prop
     /\ _get_object_type g id = Some t
     /\ In prop (valid_output_properties t)) ->
  add_all add_output (map spec_of bs) g
  = Some (mkGenerator (parser g) (inp_file g) (inputs g)
            (outputs g ++ number_from (List.length (outputs g)) bs)).
Proof.
  revert g. induction bs as [| [[id t] prop] bs IH]; intros g H.
  - simpl. rewrite app_nil_r. now destruct g.
  - destruct (H id t prop (or_introl eq_refl)) as [Ci [Cp [T V]]].
    cbn [map spec_of add_all].
    rewrite (add_output_wellformed g id prop Ci Cp), T.
    apply str_in_In in V. rewrite V.
    rewrite IH.
    + unfold append_output. cbn [parser inp_file inputs outputs number_from].
      rewrite <- app_assoc, length_app. cbn [app List.length].
      now rewrite Nat.add_1_r.
    + intros id' t' prop' Hin.
      destruct (H id' t' prop' (or_intror Hin)) as [Ci' [Cp' [T' V']]].
      now repeat split.
Qed.

(** X16.  When no identifier of the model holds a colon and no link is
    also a node, the default outputs are the outputs that [add_output] makes
    of the strings [id:PROPERTY] of the default list, taken in order: the two
    ways of filling the outputs agree. *)
Theorem default_outputs_as_explicit (g : MappingGenerator) (include_quality : bool) :
  (forall id, In id (get_all_nodes (parser g) ++ get_all_links (parser g)) ->
              ~ In chr_colon id) ->
  (forall id, is_link (parser g) id -> ~ is_node (parser g) id) ->
  add_all add_output (map spec_of (default_bindings (parser g) include_quality)) g
  = Some (generate_default_outputs g include_quality).
Proof.
  intros Hcolon Hdisj.
  rewrite generate_default_outputs_spec. apply add_all_output_bindings.
  intros id t prop Hin. apply default_bindings_In in Hin.
  assert (Hprop : forall t', In prop (valid_output_properties t') -> ~ In chr_colon prop).
  { intros t' V Hc. destruct t'; simpl in V;
      repeat (destruct V as [<- | V]; [simpl in Hc; intuition discriminate |]);
      contradiction. }
  destruct Hin as [[-> [N V]] | [-> [L V]]].
  - repeat split; [| now apply (Hprop NODE) | | exact V].
    + apply Hcolon. unfold get_all_nodes, is_node in *. rewrite !in_app_iff. tauto.
    + destruct (get_object_type_cases g id)
        as [[_ E] | [[N' _] | [[N' _] | [N' _]]]]; [exact E | tauto ..].
  - repeat split; [| now apply (Hprop LINK) | | exact V].
    + apply Hcolon. unfold get_all_links, is_link in *. rewrite !in_app_iff. tauto.
    + pose proof (Hdisj id L) as N.
      destruct (get_object_type_cases g id)
        as [[N' _] | [[_ [_ E]] | [[_ [L' _]] | [_ [L' _]]]]]; [tauto | exact E | tauto ..].
Qed.

Lemma default_outputs_as_explicit_witness :
  (forall id, is_link (mkParser [lit "J1"] [] [lit "T1"] [lit "P1"] [] [] [] 3600 false) id ->
              ~ is_node (mkParser [lit "J1"] [] [lit "T1"] [lit "P1"] [] [] [] 3600 false) id)
  /\ add_all add_output [lit "T1:TANKLEVEL"; lit "J1:PRESSURE"; lit "P1:FLOW"]
       (MappingGenerator_init
          (mkParser [lit "J1"] [] [lit "T1"] [lit "P1"] [] [] [] 3600 false) [])
     = Some (generate_default_outputs
               (MappingGenerator_init
                  (mkParser [lit "J1"] [] [lit "T1"] [lit "P1"] [] [] [] 3600 false) [])
               false).
Proof.
  assert (D : forall id,
             is_link (mkParser [lit "J1"] [] [lit "T1"] [lit "P1"] [] [] [] 3600 false) id ->
             ~ is_node (mkParser [lit "J1"] [] [lit "T1"] [lit "P1"] [] [] [] 3600 false) id).
  { unfold is_link, is_node. simpl. intros id H N.
    destruct H as [[<- | []] | [[] | []]].
    destruct N as [[N | []] | [[] | [N | []]]]; discriminate. }
  split; [exact D |].
  refine (default_outputs_as_explicit
            (MappingGenerator_init
               (mkParser [lit "J1"] [] [lit "T1"] [lit "P1"] [] [] [] 3600 false) [])
            false _ D).
  simpl. intros id [<- | [<- | [<- | []]]] H; simpl in H; intuition discriminate.
Defined.

Lemma number_from_In_binding start bs id t prop :
  In (id, t, prop) bs -> exists i, In (mkEntry i id t prop) (number_from start bs).
Proof.
  revert start. induction bs as [| [[id' t'] prop'] bs IH]; intros start; simpl;
    [contradiction |].
  intros [E | H].
  - inversion E; subst. exists start. now left.
  - destruct (IH (S start) H) as [i Hi]. exists i. now right.
Qed.

(** X17.  The default outputs are not checked against the output table:
    for an identifier that is both a node and a link, they hold a FLOW entry
    of type LINK, which [add_output] refuses for that identifier, since it
    resolves to NODE. *)
Theorem default_flow_unchecked (g : MappingGenerator) (include_quality : bool) (id : str) :
  is_node (parser g) id -> is_link (parser g) id -> ~ In chr_colon id ->
  (exists i, In (mkEntry i id LINK (lit "FLOW"))
               (outputs (generate_default_outputs g include_quality)))
  /\ add_output g (id ++ chr_colon :: lit "FLOW")
     = (g, Rejected (InvalidProperty (lit "FLOW") NODE)).
Proof.
  intros N L C. split.
  - rewrite generate_default_outputs_spec. cbn [outputs].
    destruct (number_from_In_binding (List.length (outputs g))
                (default_bindings (parser g) include_quality) id LINK (lit "FLOW"))
      as [i Hi].
    + unfold default_bindings, bindings, is_link in *. rewrite !in_app_iff.
      right. right. left. apply in_map_iff. exists id. split; [reflexivity |].
      rewrite !in_app_iff. tauto.
    + exists i. apply in_or_app. now right.
  - rewrite add_output_wellformed;
      [| exact C | simpl; intuition discriminate].
    destruct (get_object_type_cases g id)
      as [[_ E] | [[N' _] | [[N' _] | [N' _]]]]; [| tauto ..].
    rewrite E. reflexivity.
Qed.

Lemma default_flow_unchecked_witness :
  is_node sample_parser (lit "J1") /\ is_link sample_parser (lit "J1")
  /\ add_output sample_generator (lit "J1:FLOW")
     = (sample_generator, Rejected (InvalidProperty (lit "FLOW") NODE)).
Proof.
  assert (N : is_node sample_parser (lit "J1")) by (left; now left).
  assert (L : is_link sample_parser (lit "J1")) by (left; right; now left).
  split; [exact N |]. split; [exact L |].
  refine (proj2 (default_flow_unchecked sample_generator false (lit "J1") N L _)).
  simpl. intuition discriminate.
Defined.

(** ** Passes of the parser *)

Lemma parse_section_appends (content header : str) (out : list str) :
  _parse_section content header out = out ++ _parse_section content header [].
Proof.
  destruct (section_content header content) as [body |] eqn:E.
  - now rewrite !(parse_section_present _ _ _ _ E).
  - rewrite !(parse_section_absent _ _ _ E). now rewrite app_nil_r.
Qed.

(** X18.  [parse] adds to the lists its parser holds: after a parse, each
    list is what it was followed by the identifiers of its section.  A parser
    that is parsed again on the same text holds every identifier twice. *)
Theorem parse_appends (self : EpanetInpParser) (content : str) ok p :
  parse self (Some content) = inr (ok, p) ->
  junctions p = junctions self ++ _parse_section content (lit "[JUNCTIONS]") []
  /\ reservoirs p = reservoirs self ++ _parse_section content (lit "[RESERVOIRS]") []
  /\ tanks p = tanks self ++ _parse_section content (lit "[TANKS]") []
  /\ pipes p = pipes self ++ _parse_section content (lit "[PIPES]") []
  /\ pumps p = pumps self ++ _parse_section content (lit "[PUMPS]") []
  /\ valves p = valves self ++ _parse_section content (lit "[VALVES]") []
  /\ patterns p = patterns self ++ _parse_section content (lit "[PATTERNS]") [].
Proof.
  intros H. apply parse_returns in H. destruct H as [_ [p1 [H1 ->]]].
  apply parse_times_frame in H1. destruct H1 as [H1 _].
  destruct (parse_quality_frame p1 content) as [H2 _].
  destruct H1 as [A1 [A2 [A3 [A4 [A5 [A6 A7]]]]]].
  destruct H2 as [B1 [B2 [B3 [B4 [B5 [B6 B7]]]]]].
  simpl in A1, A2, A3, A4, A5, A6, A7.
  rewrite <- B1, <- B2, <- B3, <- B4, <- B5, <- B6, <- B7.
  rewrite <- A1, <- A2, <- A3, <- A4, <- A5, <- A6, <- A7.
  repeat split; apply parse_section_appends.
Qed.

Lemma parse_appends_witness :
  parse (mkParser [lit "J1"; lit "J2"] [] [lit "T1"] [lit "P1"] [] [] [lit "J1"] 300 false)
    (Some sample_text)
  = inr (true,
         mkParser [lit "J1"; lit "J2"; lit "J1"; lit "J2"] [] [lit "T1"; lit "T1"]
           [lit "P1"; lit "P1"] [] [] [lit "J1"; lit "J1"] 300 false)
  /\ [lit "J1"; lit "J2"; lit "J1"; lit "J2"]
     = [lit "J1"; lit "J2"] ++ _parse_section sample_text (lit "[JUNCTIONS]") [].
Proof.
  split; [reflexivity |].
  exact (proj1 (parse_appends
                  (mkParser [lit "J1"; lit "J2"] [] [lit "T1"] [lit "P1"] [] []
                     [lit "J1"] 300 false)
                  sample_text true _ eq_refl)).
Defined.

(** X19.  The two option passes touch their own field only: the pass over
    the TIMES section, when it returns, leaves the seven lists and the quality
    flag as they were, and the pass over the OPTIONS section leaves the seven
    lists and the hydraulic timestep as they were. *)
Theorem option_passes_frame (self : EpanetInpParser) (content : str) :
  (forall self',
     _parse_times_section self content = inr self' ->
     same_lists self self' /\ quality_enabled self' = quality_enabled self)
  /\ same_lists self (_parse_quality_section self content)
  /\ hydraulic_timestep (_parse_quality_section self content)
     = hydraulic_timestep self.
Proof.
  split; [intros self'; apply parse_times_frame |].
  apply parse_quality_frame.
Qed.

Lemma option_passes_frame_witness :
  _parse_times_section sample_parser sample_text
  = inr (set_hydraulic_timestep sample_parser 300)
  /\ quality_enabled (set_hydraulic_timestep sample_parser 300)
     = quality_enabled sample_parser.
Proof.
  split; [reflexivity |].
  exact (proj2 (proj1 (option_passes_frame sample_parser sample_text) _ eq_refl)).
Defined.

(** ** Specifications against a parsed model *)

Lemma parsed_model_ids (content : str) ok (p : EpanetInpParser) (id : str) :
  parse EpanetInpParser_init (Some content) = inr (ok, p) ->
  is_node p id \/ is_link p id \/ is_pattern p id ->
  id <> [] /\ forall c, In c id -> isspace c = false /\ c <> chr_semicolon.
Proof.
  intros H Hin. apply parse_lists in H.
  destruct H as [A1 [A2 [A3 [A4 [A5 [A6 A7]]]]]].
  unfold is_node, is_link, is_pattern in Hin.
  rewrite A1, A2, A3, A4, A5, A6, A7 in Hin.
  destruct Hin as [[Hin | [Hin | Hin]] | [[Hin | [Hin | Hin]] | Hin]];
    now apply parse_section_ids in Hin.
Qed.

(** X20.  Against a model that was parsed, a specification whose
    identifier part is empty, or holds a whitespace character or a semicolon,
    is rejected as naming an unknown element, by [add_input] and by
    [add_output] alike: the identifier part is compared as it stands, and no
    identifier of a parsed model is of that kind. *)
Theorem odd_identifier_is_unknown (content : str) ok (p : EpanetInpParser)
  (g : MappingGenerator) (id prop : str) :
  parse EpanetInpParser_init (Some content) = inr (ok, p) ->
  parser g = p ->
  ~ In chr_colon id -> ~ In chr_colon prop ->
  id = [] \/ (exists c, In c id /\ (isspace c = true \/ c = chr_semicolon)) ->
  add_input g (id ++ chr_colon :: prop) = (g, Rejected (UnknownElement id))
  /\ add_output g (id ++ chr_colon :: prop) = (g, Rejected (UnknownElement id)).
Proof.
  intros P Pg Ci Cp Hodd.
  assert (E : _get_object_type g id = None).
  { destruct (get_object_type_cases g id)
      as [[N _] | [[_ [L _]] | [[_ [_ [A _]]] | [_ [_ [_ E]]]]]]; [| | | exact E];
      exfalso; rewrite Pg in *.
    - destruct (parsed_model_ids content ok p id P (or_introl N)) as [Hne Hch].
      destruct Hodd as [-> | [c [Hc [Hs | ->]]]]; [congruence | |].
      + destruct (Hch c Hc). congruence.
      + destruct (Hch _ Hc). congruence.
    - destruct (parsed_model_ids content ok p id P (or_intror (or_introl L)))
        as [Hne Hch].
      destruct Hodd as [-> | [c [Hc [Hs | ->]]]]; [congruence | |].
      + destruct (Hch c Hc). congruence.
      + destruct (Hch _ Hc). congruence.
    - destruct (parsed_model_ids content ok p id P (or_intror (or_intror A)))
        as [Hne Hch].
      destruct Hodd as [-> | [c [Hc [Hs | ->]]]]; [congruence | |].
      + destruct (Hch c Hc). congruence.
      + destruct (Hch _ Hc). congruence. }
  split.
  - rewrite (add_input_wellformed g id prop Ci Cp), E. reflexivity.
  - rewrite (add_output_wellformed g id prop Ci Cp), E. reflexivity.
Qed.

Lemma odd_identifier_is_unknown_witness :
  parse EpanetInpParser_init (Some sample_text)
  = inr (true,
         mkParser [lit "J1"; lit "J2"] [] [lit "T1"] [lit "P1"] [] [] [lit "J1"]
                  300 false)
  /\ add_input
       (MappingGenerator_init
          (mkParser [lit "J1"; lit "J2"] [] [lit "T1"] [lit "P1"] [] [] [lit "J1"]
             300 false) [])
       (lit " J1:DEMAND")
     = (MappingGenerator_init
          (mkParser [lit "J1"; lit "J2"] [] [lit "T1"] [lit "P1"] [] [] [lit "J1"]
             300 false) [],
        Rejected (UnknownElement (lit " J1"))).
Proof.
  split; [reflexivity |].
  refine (proj1 (odd_identifier_is_unknown sample_text true _
                   (MappingGenerator_init _ []) (lit " J1") (lit "DEMAND")
                   eq_refl eq_refl _ _ _)).
  - simpl. intuition discriminate.
  - simpl. intuition discriminate.
  - right. exists " "%char. split; [now left | now left].
Defined.
